(** * The room-based WebSocket signaling relay of [signaling/server.js]

    A shallow embedding of the relay server: the [rooms] registry, the
    per-connection [message], [pong] and [close] handlers and the
    [heartbeat] timer, followed by the properties proved about them.

    What belongs to the runtime and to the [ws] library is kept abstract:
    - a received frame is given by what [JSON.parse] makes of it;
    - [c.send(x)] is recorded as the action [Send c x], where [x] is what
      [JSON.stringify] returned;
    - [ws.ping()] and [ws.terminate()] are recorded as [Ping] and
      [Terminate];
    - console output is not recorded, except that building a log line
      can throw, which aborts the handler;
    - how deep a conversion may recurse before the stack overflows is a
      parameter, [Runtime].

    The two relays without rooms that the repository also holds, the
    plain one of [webrtc-signaling/server.js] and the checked one of the
    deployment notes, are embedded after it in the modules [Broadcast]
    and [Checked]. *)

From Stdlib Require Import ZArith String.
From stdpp Require Import base option list strings countable gmap.

Open Scope string_scope.
Open Scope list_scope.
#[local] Set Warnings "-register-all,-clear-no-such-hyp".

(** ** JavaScript values *)

Module JS.

(** A Number as [JSON.parse] returns it, each double in one form: an
    integral double other than [-0] by its value; [-0]; a double that is
    no integer, which is [(2m - 1) / 2^k] up to its sign; and the
    infinities, which a literal too large for a double such as [1e400]
    parses to.  [NaN] is never parsed. *)
Inductive number : Type :=
| Integer (z : Z)
| NegZero
| Fraction (negative : bool) (m k : positive)
| Infinity (negative : bool).

(** A value as [JSON.parse] builds it.  Arrays and objects live on the
    heap: [loc] is their identity, which is what [Map] compares.
    [props] lists the own properties of an object in the order in which
    they are enumerated, each name once ([JSON.parse] keeps the last of a
    repeated name). *)
Inductive value : Type :=
| VUndefined
| VNull
| VBool (b : bool)
| VNumber (n : number)
| VString (s : string)
| VArray (loc : nat) (elems : list value)
| VObject (loc : nat) (props : list (string * value)).

#[global] Instance number_eq_dec : EqDecision number.
Proof. solve_decision. Defined.

Definition number_encode (n : number) : Z + (unit + (bool * (positive * positive) + bool)) :=
  match n with
  | Integer z => inl z
  | NegZero => inr (inl ())
  | Fraction s m k => inr (inr (inl (s, (m, k))))
  | Infinity s => inr (inr (inr s))
  end.

Definition number_decode (x : Z + (unit + (bool * (positive * positive) + bool))) : number :=
  match x with
  | inl z => Integer z
  | inr (inl _) => NegZero
  | inr (inr (inl (s, (m, k)))) => Fraction s m k
  | inr (inr (inr s)) => Infinity s
  end.

#[global] Instance number_countable : Countable number.
Proof. apply (inj_countable' number_encode number_decode). by intros []. Defined.

(** What a [Map] sees of a key: SameValueZero identifies primitives by
    value, [-0] with [0], and heap values by identity. *)
Inductive key : Type :=
| KUndefined
| KNull
| KBool (b : bool)
| KNumber (n : number)
| KString (s : string)
| KRef (loc : nat).

Definition key_of (v : value) : key :=
  match v with
  | VUndefined => KUndefined
  | VNull => KNull
  | VBool b => KBool b
  | VNumber NegZero => KNumber (Integer 0)
  | VNumber n => KNumber n
  | VString s => KString s
  | VArray loc _ => KRef loc
  | VObject loc _ => KRef loc
  end.

#[global] Instance key_eq_dec : EqDecision key.
Proof. solve_decision. Defined.

Definition key_encode (k : key) : (unit + unit) + (bool + (number + (string + nat))) :=
  match k with
  | KUndefined => inl (inl ())
  | KNull => inl (inr ())
  | KBool b => inr (inl b)
  | KNumber n => inr (inr (inl n))
  | KString s => inr (inr (inr (inl s)))
  | KRef loc => inr (inr (inr (inr loc)))
  end.

Definition key_decode (x : (unit + unit) + (bool + (number + (string + nat)))) : key :=
  match x with
  | inl (inl _) => KUndefined
  | inl (inr _) => KNull
  | inr (inl b) => KBool b
  | inr (inr (inl n)) => KNumber n
  | inr (inr (inr (inl s))) => KString s
  | inr (inr (inr (inr loc))) => KRef loc
  end.

#[global] Instance key_countable : Countable key.
Proof. apply (inj_countable' key_encode key_decode). by intros []. Defined.

(** SameValueZero, the comparison of [Map], [Set] and [Array.includes]. *)
Definition same_value_zero (a b : value) : bool :=
  bool_decide (key_of a = key_of b).

(** [a === b] when [b] is a string literal. *)
Definition strict_eq_string (a : value) (lit : string) : bool :=
  match a with
  | VString s => String.eqb s lit
  | _ => false
  end.

(** ToBoolean: [undefined], [null], [false], both zeros and the empty
    string are falsy; every array and object is truthy. *)
Definition ToBoolean (v : value) : bool :=
  match v with
  | VUndefined | VNull => false
  | VBool b => b
  | VNumber (Integer z) => negb (z =? 0)%Z
  | VNumber NegZero => false
  | VNumber (Fraction _ _ _) | VNumber (Infinity _) => true
  | VString s => negb (String.eqb s "")
  | VArray _ _ | VObject _ _ => true
  end.

(** [a || b]. *)
Definition or_else (a b : value) : value :=
  if ToBoolean a then a else b.

(** Reading a property of an object built by [JSON.parse]; a name it does
    not own is looked up on the prototype, where none of the names the
    server reads ([type], [roomId], [senderId], [payload]) exists.  The
    same holds for those names on a boolean, a number, a string or an
    array. *)
Fixpoint own_property (name : string) (props : list (string * value)) : option value :=
  match props with
  | [] => None
  | (n, v) :: rest => if String.eqb n name then Some v else own_property name rest
  end.

Definition get (v : value) (name : string) : value :=
  match v with
  | VObject _ props => default VUndefined (own_property name props)
  | _ => VUndefined
  end.

(** Exceptions and abrupt completion. *)
Inductive exn : Type := SyntaxError | TypeError | RangeError.

Inductive completion (A : Type) : Type :=
| Normal (a : A)
| Throw (e : exn).
Arguments Normal {A} a.
Arguments Throw {A} e.

Definition bind {A B : Type} (c : completion A) (k : A -> completion B) : completion B :=
  match c with
  | Normal a => k a
  | Throw e => Throw e
  end.

(** A function that may throw, run over a list from left to right. *)
Definition mapM {A B : Type} (f : A -> completion B) : list A -> completion (list B) :=
  fix go (l : list A) : completion (list B) :=
    match l with
    | [] => Normal []
    | x :: rest => bind (f x) (λ y, bind (go rest) (λ ys, Normal (y :: ys)))
    end.

(** ToString, which a template literal applies to each substitution.  On
    an object it calls [toString], then [valueOf]: an own property
    [toString] of a parsed object is never callable and
    [Object.prototype.valueOf] returns the object itself, so the
    conversion ends in a TypeError exactly when the object owns a
    property named [toString].  An array is joined: its elements are
    converted in turn, except [null] and [undefined], by a call that
    recurses; [stack] is how many arrays deep the call may go before the
    stack overflows, which is a RangeError.  The string itself is not
    kept. *)
Fixpoint ToString (stack : nat) (v : value) {struct v} : completion unit :=
  match v with
  | VArray _ elems =>
      match stack with
      | 0 => Throw RangeError
      | S stack' =>
          bind
            (mapM (λ x, match x with
                        | VUndefined | VNull => Normal ()
                        | _ => ToString stack' x
                        end) elems)
            (λ _, Normal ())
      end
  | VObject _ props =>
      if bool_decide (is_Some (own_property "toString" props))
      then Throw TypeError
      else Normal ()
  | _ => Normal ()
  end.

(** A JSON text, by the value it denotes: what the peer that receives
    the text parses. *)
Inductive json : Type :=
| JNull
| JBool (b : bool)
| JNumber (n : number)
| JString (s : string)
| JArray (elems : list json)
| JObject (members : list (string * json)).

(** How [JSON.stringify] writes a number: a number that is not finite
    becomes [null], and [-0] becomes [0]. *)
Definition SerializeJSONNumber (n : number) : json :=
  match n with
  | Infinity _ => JNull
  | NegZero => JNumber (Integer 0)
  | _ => JNumber n
  end.

(** [JSON.stringify] on a value: [undefined] has no text, which leaves a
    property out of an object and writes [null] in an array.  A property
    [toJSON] of a parsed value is never callable, so it is written like
    any other.  Arrays and objects are written by a call that recurses;
    [stack] is how many of them deep the call may go before the stack
    overflows, which is a RangeError. *)
Fixpoint SerializeJSONProperty (stack : nat) (v : value) {struct v}
  : completion (option json) :=
  match v with
  | VUndefined => Normal None
  | VNull => Normal (Some JNull)
  | VBool b => Normal (Some (JBool b))
  | VNumber n => Normal (Some (SerializeJSONNumber n))
  | VString s => Normal (Some (JString s))
  | VArray _ elems =>
      match stack with
      | 0 => Throw RangeError
      | S stack' =>
          bind (mapM (SerializeJSONProperty stack') elems) (λ texts,
          Normal (Some (JArray (default JNull <$> texts))))
      end
  | VObject _ props =>
      match stack with
      | 0 => Throw RangeError
      | S stack' =>
          bind (mapM (λ p, bind (SerializeJSONProperty stack' p.2) (λ text,
                           Normal (pair p.1 <$> text))) props) (λ members,
          Normal (Some (JObject (omap id members))))
      end
  end.

(** A [Set] keeps insertion order and holds an element once. *)
Definition set_add (x : nat) (s : list nat) : list nat :=
  if decide (x ∈ s) then s else s ++ [x].

Definition set_delete (x : nat) (s : list nat) : list nat :=
  filter (λ y, y ≠ x) s.

End JS.

Import JS.
Arguments set_add : simpl never.
Arguments set_delete : simpl never.

#[global] Instance completion_bind : MBind completion :=
  λ A B k c, JS.bind c k.

(** How far the runtime lets a conversion recurse depends on the
    engine, on the size of its stack and on how much of the stack is in
    use where the conversion is called: in the body of a handler, or in
    the callback of a [forEach] that the body runs, which lies deeper.
    The server is read for every choice of these limits:
    [toString_depth] is the [stack] of [ToString] in a template literal,
    [stringify_depth] the one of [JSON.stringify]. *)
Inductive site : Type := Body | Callback.

Class Runtime : Type := {
  toString_depth : site → nat;
  stringify_depth : site → nat
}.

(** ** Connections *)

(** The fields of a connection object that the server reads or writes:
    [isAlive], [roomId] and [senderId] are the server's own, and
    [readyState] is kept by the library. *)
Module WebSocket.

Inductive ready_state : Type := CONNECTING | OPEN | CLOSING | CLOSED.

#[global] Instance ready_state_eq_dec : EqDecision ready_state.
Proof. solve_decision. Defined.

Record t : Type := Make {
  isAlive : bool;
  roomId : value;
  senderId : value;
  readyState : ready_state
}.

(** A connection as the [connection] handler leaves it: [isAlive] is set,
    [roomId] and [senderId] are still undefined. *)
Definition accepted : t := Make true VUndefined VUndefined OPEN.

Definition set_isAlive (b : bool) (s : t) : t :=
  Make b (roomId s) (senderId s) (readyState s).

Definition set_room (r sid : value) (s : t) : t :=
  Make (isAlive s) r sid (readyState s).

Definition set_readyState (rs : ready_state) (s : t) : t :=
  Make (isAlive s) (roomId s) (senderId s) rs.

End WebSocket.

(** ** The server's state *)

(** [sockets] holds every connection object ever accepted; a connection
    is named by its index there and stays after it closed, since a room
    may still refer to it.  [clients] is [wss.clients], the set of
    connections the library has accepted and not yet closed.  [rooms] is
    the [Map] from room identifier to its [Set] of members; the map is
    never iterated, so it is kept as a finite map on [key], and a member
    set is a list in insertion order, the order of [forEach]. *)
Record server : Type := Server {
  sockets : list WebSocket.t;
  clients : list nat;
  rooms : gmap key (list nat)
}.

Definition initial : server := Server [] [] ∅.

(** What the server asks of the library.  [Send c x] is [c.send(x)] with
    [x] what [JSON.stringify] returned: a text, or [undefined]. *)
Inductive action : Type :=
| Send (to : nat) (text : option json)
| Ping (ws : nat)
| Terminate (ws : nat).

Definition with_sockets (f : list WebSocket.t -> list WebSocket.t) (st : server) : server :=
  Server (f (sockets st)) (clients st) (rooms st).

Definition with_clients (f : list nat -> list nat) (st : server) : server :=
  Server (sockets st) (f (clients st)) (rooms st).

Definition with_rooms (f : gmap key (list nat) -> gmap key (list nat)) (st : server) : server :=
  Server (sockets st) (clients st) (f (rooms st)).

(** Field reads; a name that is no connection reads as [undefined]. *)
Definition isAlive (st : server) (ws : nat) : bool :=
  from_option WebSocket.isAlive false (sockets st !! ws).

Definition roomId (st : server) (ws : nat) : value :=
  from_option WebSocket.roomId VUndefined (sockets st !! ws).

Definition readyState (st : server) (ws : nat) : option WebSocket.ready_state :=
  WebSocket.readyState <$> sockets st !! ws.

(** [rooms.has(roomId)], [rooms.get(roomId)] and [rooms.get(roomId).size]. *)
Definition rooms_has (roomId : value) (st : server) : bool :=
  bool_decide (is_Some (rooms st !! key_of roomId)).

Definition rooms_get (roomId : value) (st : server) : option (list nat) :=
  rooms st !! key_of roomId.

Definition room_size (roomId : value) (st : server) : nat :=
  from_option length 0 (rooms st !! key_of roomId).

(** ** Handler bodies *)

(** The body of a handler reads and writes the state of the server,
    calls the library and may throw: it takes the state and gives the
    state it leaves, the calls it made and how it completed.  What was
    written and sent before a throw stays written and sent. *)
Module Handler.

Definition t (A : Type) : Type := server → server * list action * completion A.

Definition ret {A : Type} (a : A) : t A := λ st, (st, [], Normal a).

Definition bind {A B : Type} (h : t A) (k : A → t B) : t B := λ st,
  let '(st1, out1, c) := h st in
  match c with
  | Normal a => let '(st2, out2, c2) := k a st1 in (st2, out1 ++ out2, c2)
  | Throw e => (st1, out1, Throw e)
  end.

(** An expression that may throw, a read of the state, a write to it and
    a call of the library. *)
Definition lift {A : Type} (c : completion A) : t A := λ st, (st, [], c).

Definition read {A : Type} (f : server → A) : t A := λ st, (st, [], Normal (f st)).

Definition write (f : server → server) : t unit := λ st, (f st, [], Normal ()).

Definition call (a : action) : t unit := λ st, (st, [a], Normal ()).

(** [if (b) { h }]. *)
Definition when (b : bool) (h : t unit) : t unit :=
  if b then h else ret ().

(** [set.forEach(x => { body })]. *)
Fixpoint forEach (set : list nat) (body : nat → t unit) : t unit :=
  match set with
  | [] => ret ()
  | x :: rest => bind (body x) (λ _, forEach rest body)
  end.

(** [try { h } catch (err) { console.error(...) }]: the handler returns
    with what [h] did until it threw. *)
Definition try_catch (h : t unit) (st : server) : server * list action :=
  (h st).1.

End Handler.

#[global] Instance handler_bind : MBind Handler.t :=
  λ A B k h, Handler.bind h k.

Section server.

Context {runtime : Runtime}.

(** [JSON.stringify(v)], called from [s]. *)
Definition JSON_stringify (s : site) (v : value) : completion (option json) :=
  SerializeJSONProperty (stringify_depth s) v.

(** ** The [message] handler (lines 28 to 71) *)

(** A received frame, as [JSON.parse] reads it: it throws a SyntaxError
    or returns a value. *)
Inductive frame : Type :=
| Unparseable
| Json (data : value).

Definition JSON_parse (message : frame) : completion value :=
  match message with
  | Unparseable => Throw SyntaxError
  | Json data => Normal data
  end.

(** [const { type, roomId, senderId, payload } = data]: destructuring
    [null] throws a TypeError; any other value is coerced to an object. *)
Definition destructure (data : value) : completion (value * value * value * value) :=
  match data with
  | VUndefined | VNull => Throw TypeError
  | _ => Normal (get data "type", get data "roomId", get data "senderId", get data "payload")
  end.

(** Line 33 builds the log line from [roomId], [type] and
    [senderId || 'unknown'], converting each to a string in turn. *)
Definition log_received (roomId type senderId : value) : completion unit :=
  _ ← ToString (toString_depth Body) roomId;
  _ ← ToString (toString_depth Body) type;
  ToString (toString_depth Body) (or_else senderId (VString "unknown")).

(** Line 44 converts [roomId], [senderId] and the size of the room, a
    number. *)
Definition log_joined (roomId senderId : value) : completion unit :=
  _ ← ToString (toString_depth Body) roomId;
  ToString (toString_depth Body) senderId.

(** Line 62, in the callback of [room.forEach], converts [roomId] and
    [type]. *)
Definition log_relayed (roomId type : value) : completion unit :=
  _ ← ToString (toString_depth Callback) roomId;
  ToString (toString_depth Callback) type.

(** Lines 30 to 33: parse the frame, read its fields, write the log
    line. *)
Definition read_message (message : frame)
  : completion (value * (value * value * value * value)) :=
  data ← JSON_parse message;
  fields ← destructure data;
  let '(type, roomId, senderId, payload) := fields in
  _ ← log_received roomId type senderId;
  Normal (data, fields).

(** Lines 37 to 42: the room is made if there is none, the connection is
    added to it, and the room and the sender are recorded on the
    connection. *)
Definition join_room_writes (ws : nat) (roomId senderId : value) (st : server) : server :=
  let st1 :=
    if negb (rooms_has roomId st)
    then with_rooms (insert (key_of roomId) []) st
    else st in
  let st2 := with_rooms (alter (set_add ws) (key_of roomId)) st1 in
  with_sockets (alter (WebSocket.set_room roomId senderId) ws) st2.

(** The object literal of lines 47 to 51.  It is handed to
    [JSON.stringify] and dropped; it is never a key, so where it lives
    plays no part. *)
Definition joined (roomId : value) (peersInRoom : nat) : value :=
  VObject 0 [("type", VString "joined"); ("roomId", roomId);
             ("peersInRoom", VNumber (Integer (Z.of_nat peersInRoom)))].

(** Lines 36 to 52, the [join-room] branch. *)
Definition join_room (ws : nat) (roomId senderId : value) : Handler.t unit :=
  _ ← Handler.write (join_room_writes ws roomId senderId);
  _ ← Handler.lift (log_joined roomId senderId);
  peersInRoom ← Handler.read (room_size roomId);
  text ← Handler.lift (JSON_stringify Body (joined roomId peersInRoom));
  Handler.call (Send ws text).

(** [['offer', 'answer', 'ice-candidate'].includes(type)]. *)
Definition is_signaling (type : value) : bool :=
  existsb (same_value_zero type)
    [VString "offer"; VString "answer"; VString "ice-candidate"].

(** [client !== ws && client.readyState === WebSocket.OPEN]. *)
Definition relay_target (st : server) (ws client : nat) : Prop :=
  client ≠ ws ∧ readyState st client = Some WebSocket.OPEN.

#[global] Instance relay_target_dec st ws client : Decision (relay_target st ws client).
Proof. unfold relay_target. apply _. Defined.

(** Lines 55 to 66, the relay branch: the room is looked up under the
    [roomId] of the message, and for every member it is sent to the
    message is serialised again and a log line is written.  An exception
    in the callback ends the loop. *)
Definition relay (ws : nat) (data roomId type : value) : Handler.t unit :=
  room ← Handler.read (rooms_get roomId);
  match room with
  | Some room =>
      Handler.forEach room (λ client,
        target ← Handler.read (λ st, bool_decide (relay_target st ws client));
        Handler.when target (
          text ← Handler.lift (JSON_stringify Callback data);
          _ ← Handler.call (Send client text);
          Handler.lift (log_relayed roomId type)))
  | None => Handler.ret ()
  end.

(** Lines 35 to 66: the two [if] statements on [type]. *)
Definition dispatch (ws : nat) (data type roomId senderId : value) : Handler.t unit :=
  _ ← Handler.when (strict_eq_string type "join-room") (join_room ws roomId senderId);
  Handler.when (is_signaling type) (relay ws data roomId type).

(** The body of the [try] block. *)
Definition message_body (ws : nat) (message : frame) : Handler.t unit :=
  '(data, (type, roomId, senderId, payload)) ← Handler.lift (read_message message);
  dispatch ws data type roomId senderId.

(** The handler: the [catch] clause logs the error and returns. *)
Definition on_message (ws : nat) (message : frame) (st : server) : server * list action :=
  Handler.try_catch (message_body ws message) st.

(** ** The other handlers *)

(** Line 25, run when the library hands over an accepted connection,
    which it has already added to [wss.clients]. *)
Definition on_connection (st : server) : server :=
  let ws := length (sockets st) in
  with_clients (set_add ws) (with_sockets (λ l, l ++ [WebSocket.accepted]) st).

(** Line 26, the [pong] handler. *)
Definition on_pong (ws : nat) (st : server) : server :=
  with_sockets (alter (WebSocket.set_isAlive true) ws) st.

(** Lines 73 to 86, the [close] handler.  Its log lines convert, in the
    body of a handler, the identifier recorded on the connection, which
    line 33 has converted before line 41 recorded it. *)
Definition on_close (ws : nat) (st : server) : server :=
  let roomId := roomId st ws in
  if ToBoolean roomId && rooms_has roomId st then
    let st1 := with_rooms (alter (set_delete ws) (key_of roomId)) st in
    if (room_size roomId st1 =? 0)%nat
    then with_rooms (delete (key_of roomId)) st1
    else st1
  else st.

(** Lines 88 to 90, the [error] handler, which only logs. *)
Definition on_error (ws : nat) (st : server) : server := st.

(** What the library does to a connection before it emits [close]: the
    connection is CLOSED and leaves [wss.clients]. *)
Definition ws_closed (ws : nat) (st : server) : server :=
  with_clients (set_delete ws)
    (with_sockets (alter (WebSocket.set_readyState WebSocket.CLOSED) ws) st).

(** [ws.terminate()] destroys the socket: the connection is CLOSING until
    the library emits [close] for it. *)
Definition ws_terminate (ws : nat) (st : server) : server :=
  with_sockets (alter (λ s,
    match WebSocket.readyState s with
    | WebSocket.CLOSED => s
    | _ => WebSocket.set_readyState WebSocket.CLOSING s
    end) ws) st.

(** Lines 93 to 102: one visit of [wss.clients.forEach], and the loop. *)
Definition heartbeat_visit (ws : nat) (st : server) : server * action :=
  if negb (isAlive st ws)
  then (ws_terminate ws st, Terminate ws)
  else (with_sockets (alter (WebSocket.set_isAlive false) ws) st, Ping ws).

Fixpoint heartbeat_loop (todo : list nat) (st : server) : server * list action :=
  match todo with
  | [] => (st, [])
  | ws :: rest =>
      let '(st1, a) := heartbeat_visit ws st in
      let '(st2, out) := heartbeat_loop rest st1 in
      (st2, a :: out)
  end.

Definition heartbeat (st : server) : server * list action :=
  heartbeat_loop (clients st) st.

(** ** The event loop *)

(** What can happen to the server: a connection is accepted, a frame or
    a pong arrives on a connection, a connection closes or reports an
    error, the heartbeat timer fires. *)
Inductive event : Type :=
| Connection
| Message (ws : nat) (message : frame)
| Pong (ws : nat)
| Close (ws : nat)
| Error (ws : nat)
| Tick.

Definition step (ev : event) (st : server) : server * list action :=
  match ev with
  | Connection => (on_connection st, [])
  | Message ws message => on_message ws message st
  | Pong ws => (on_pong ws st, [])
  | Close ws => (on_close ws (ws_closed ws st), [])
  | Error ws => (on_error ws st, [])
  | Tick => heartbeat st
  end.

(** The library emits [message], [pong], [close] and [error] only for a
    connection of [wss.clients]. *)
Definition enabled (ev : event) (st : server) : Prop :=
  match ev with
  | Message ws _ | Pong ws | Close ws | Error ws => ws ∈ clients st
  | Connection | Tick => True
  end.

#[global] Instance enabled_dec ev st : Decision (enabled ev st).
Proof. destruct ev; simpl; apply _. Defined.

(** Running a list of events; [None] when one of them cannot happen. *)
Fixpoint exec (evs : list event) (st : server) : option (server * list action) :=
  match evs with
  | [] => Some (st, [])
  | ev :: rest =>
      if decide (enabled ev st) then
        let '(st1, out1) := step ev st in
        '(st2, out2) ← exec rest st1;
        Some (st2, out1 ++ out2)
      else None
  end.

Inductive reachable : server -> Prop :=
| reachable_initial : reachable initial
| reachable_step ev st :
    reachable st -> enabled ev st -> reachable (step ev st).1.

End server.

(** ** The status endpoint (lines 13 to 20) *)

(** The object that [/health] answers with, without its [timestamp],
    which is the wall-clock time of the request. *)
Module Health.

Record t : Type := Make {
  status : string;
  rooms : nat
}.

End Health.

Definition health (st : server) : Health.t :=
  Health.Make "ok" (size (rooms st)).

(** ** Notions used by the properties *)

Section notions.

Context {runtime : Runtime}.

(** [wss.clients] and every member set hold an element once, a client is
    a connection that was accepted, and no room is empty. *)
Record wf (st : server) : Prop := Wf {
  wf_clients_NoDup : NoDup (clients st);
  wf_clients_lt : ∀ ws, ws ∈ clients st → ws < length (sockets st);
  wf_rooms_NoDup : ∀ k room, rooms st !! k = Some room → NoDup room;
  wf_rooms_nonempty : ∀ k room, rooms st !! k = Some room → room ≠ []
}.

(** The room that the [close] handler cleans: the one recorded on the
    connection, when that identifier is truthy and names a room. *)
Definition cleaned_room (ws : nat) (st : server) : option key :=
  if ToBoolean (roomId st ws) && rooms_has (roomId st ws) st
  then Some (key_of (roomId st ws))
  else None.

(** Connection [ws] is in the member set of the room named [roomId]. *)
Definition is_member (st : server) (roomId : value) (ws : nat) : Prop :=
  ∃ room, rooms_get roomId st = Some room ∧ ws ∈ room.

(** The connection is in no room but the one recorded on it. *)
Definition only_in_recorded_room (st : server) (ws : nat) : Prop :=
  ∀ r, is_member st r ws → key_of r = key_of (roomId st ws).

(** A broadcast over the room recorded on the sending connection when it
    joined, which is how C6 words the relay. *)
Definition broadcast_to_recorded_room (ws : nat) (data : value) (st : server) : list action :=
  (relay ws data (roomId st ws) (get data "type") st).1.2.

(** [a] is a message handed to connection [c]. *)
Definition sent_to (c : nat) (a : action) : Prop :=
  match a with
  | Send to _ => to = c
  | Ping _ | Terminate _ => False
  end.

#[global] Instance sent_to_dec c a : Decision (sent_to c a).
Proof. destruct a; simpl; apply _. Defined.

(** How many messages [out] hands to connection [c]. *)
Definition deliveries (c : nat) (out : list action) : nat :=
  length (filter (sent_to c) out).

(** [a] is a heartbeat probe sent to connection [c]. *)
Definition probe_of (c : nat) (a : action) : Prop :=
  match a with
  | Ping ws => ws = c
  | Send _ _ | Terminate _ => False
  end.

#[global] Instance probe_of_dec c a : Decision (probe_of c a).
Proof. destruct a; simpl; apply _. Defined.



(** The JSON value that a parsed value is, which is how C7 words what a
    recipient should get: the same tree, every number as it was
    parsed. *)
Fixpoint json_of (v : value) : json :=
  match v with
  | VUndefined | VNull => JNull
  | VBool b => JBool b
  | VNumber n => JNumber n
  | VString s => JString s
  | VArray _ elems => JArray (map json_of elems)
  | VObject _ props => JObject (map (λ p, (p.1, json_of p.2)) props)
  end.

(** The value holds no number that JSON cannot write, an infinity or
    [-0], and no [undefined]. *)
Fixpoint writable (v : value) : bool :=
  match v with
  | VUndefined => false
  | VNumber (Infinity _) | VNumber NegZero => false
  | VNull | VBool _ | VNumber _ | VString _ => true
  | VArray _ elems => forallb writable elems
  | VObject _ props => forallb (λ p, writable p.2) props
  end.

(** Arrays and objects are nested at most [n] deep in the value. *)
Fixpoint nested_within (n : nat) (v : value) {struct v} : bool :=
  match v with
  | VArray _ elems =>
      match n with
      | 0 => false
      | S n' => forallb (nested_within n') elems
      end
  | VObject _ props =>
      match n with
      | 0 => false
      | S n' => forallb (λ p, nested_within n' p.2) props
      end
  | _ => true
  end.

(** The value cannot be printed in a log line when the call may go
    [stack] arrays deep: it is an object that owns a property named
    [toString], or an array nested deeper than that, or an array that
    holds a value that cannot be printed one array further down. *)
Inductive unprintable : nat → value → Prop :=
| unprintable_object stack loc props :
    is_Some (own_property "toString" props) →
    unprintable stack (VObject loc props)
| unprintable_deep loc elems :
    unprintable 0 (VArray loc elems)
| unprintable_element stack loc elems x :
    x ∈ elems → unprintable stack x →
    unprintable (S stack) (VArray loc elems).

(** A value that is no array and no object. *)
Definition is_primitive (v : value) : bool :=
  match v with
  | VArray _ _ | VObject _ _ => false
  | _ => true
  end.

(** ** Sample frames and states *)

(** The frames of the end-to-end scenario and some variations of them.
    Each parsed frame is an object of its own on the heap. *)
Definition envelope (loc : nat) (type roomId senderId : string)
    (more : list (string * value)) : value :=
  VObject loc
    ([("type", VString type); ("roomId", VString roomId);
      ("senderId", VString senderId)] ++ more).

Definition join_r1_robot : value := envelope 100 "join-room" "r1" "robot" [].
Definition join_r1_operator : value := envelope 101 "join-room" "r1" "operator" [].
Definition join_r2_operator : value := envelope 102 "join-room" "r2" "operator" [].
Definition join_r2_robot : value := envelope 108 "join-room" "r2" "robot" [].
Definition join_a : value := envelope 106 "join-room" "a" "robot" [].
Definition join_empty : value := envelope 107 "join-room" "" "robot" [].
Definition offer_r1 : value :=
  envelope 103 "offer" "r1" "operator" [("payload", VString "X")].
Definition offer_r2 : value :=
  envelope 104 "offer" "r2" "robot" [("payload", VString "X")].
Definition offer_r9 : value :=
  envelope 105 "offer" "r9" "operator" [("payload", VString "X")].

(** A [join-room] and an [offer] whose [senderId] is an object that owns
    a property named [toString], as in
    [{"type":"offer","roomId":"r1","senderId":{"toString":null}}]. *)
Definition join_r1_unprintable : value :=
  VObject 110 [("type", VString "join-room"); ("roomId", VString "r1");
               ("senderId", VObject 111 [("toString", VNull)])].

Definition offer_r1_unprintable : value :=
  VObject 112 [("type", VString "offer"); ("roomId", VString "r1");
               ("senderId", VObject 113 [("toString", VNull)]);
               ("payload", VString "X")].

(** An [offer] whose [payload] is [1e400], and one whose [payload] is
    [-0]. *)
Definition offer_r1_infinity : value :=
  envelope 114 "offer" "r1" "operator" [("payload", VNumber (Infinity false))].

Definition offer_r1_negzero : value :=
  envelope 115 "offer" "r1" "operator" [("payload", VNumber NegZero)].

(** [n] arrays, one in the other, around [null]: the text
    [[[...null...]]]. *)
Fixpoint nested_arrays (n : nat) : value :=
  match n with
  | 0 => VNull
  | S k => VArray (1000 + k) [nested_arrays k]
  end.

(** An [offer] whose [payload] is ten thousand arrays deep, a frame of
    twenty kilobytes. *)
Definition offer_r1_deep : value :=
  envelope 116 "offer" "r1" "operator" [("payload", nested_arrays (100 * 100))].

(** [n] objects, one in the other, around [null]: the text
    [{"a":{"a":...null...}}]; and a [join-room] whose [roomId] is ten
    thousand objects deep. *)
Fixpoint nested_objects (n : nat) : value :=
  match n with
  | 0 => VNull
  | S k => VObject (200 * 100 + k) [("a", nested_objects k)]
  end.

Definition join_deep : value :=
  VObject 118 [("type", VString "join-room");
               ("roomId", nested_objects (100 * 100));
               ("senderId", VString "robot")].

(** The texts that the samples are answered and relayed with. *)
Definition joined_text (roomId : string) (peersInRoom : Z) : option json :=
  Some (JObject [("type", JString "joined"); ("roomId", JString roomId);
                 ("peersInRoom", JNumber (Integer peersInRoom))]).

Definition envelope_text (type roomId senderId : string)
    (more : list (string * json)) : option json :=
  Some (JObject ([("type", JString type); ("roomId", JString roomId);
                  ("senderId", JString senderId)] ++ more)).

(** The state reached by a list of events from the initial state. *)
Definition state_after (evs : list event) : server :=
  from_option fst initial (exec evs initial).

(** Two connections, both in room [r1]. *)
Definition two_in_r1 : server :=
  state_after [Connection; Connection;
               Message 0 (Json join_r1_robot); Message 1 (Json join_r1_operator)].

(** Two connections, the robot in room [r1] and the operator in [r2]. *)
Definition one_in_each : server :=
  state_after [Connection; Connection;
               Message 0 (Json join_r1_robot); Message 1 (Json join_r2_operator)].

(** One connection that joined room [a] and then the room whose
    identifier is the empty string. *)
Definition in_a_then_empty : server :=
  state_after [Connection; Message 0 (Json join_a); Message 0 (Json join_empty)].

(** The robot joins [r1], the operator joins [r1], the robot joins [r2]. *)
Definition robot_moved_to_r2 : list event :=
  [Message 0 (Json join_r1_robot); Message 1 (Json join_r1_operator);
   Message 0 (Json join_r2_robot)].

End notions.

(** A runtime for the examples: a conversion may go two thousand deep.
    Every frame of the examples is a few levels deep, but for the one
    built to overflow the stack. *)
Definition sample_runtime : Runtime :=
  {| toString_depth := λ _, 2000; stringify_depth := λ _, 2000 |}.

(** * The plain relay of [webrtc-signaling/server.js]

    The script keeps one [Set] of connections and hands the text of every
    frame to all the others.  It has no rooms, no heartbeat and no
    [error] listener. *)

Module Broadcast.

(** [sockets] holds the [readyState] of every connection accepted so
    far, a connection being named by its index; [clients] is the [Set] of
    line 12, in insertion order. *)
Record server : Type := Server {
  sockets : list WebSocket.ready_state;
  clients : list nat
}.

Definition initial : server := Server [] [].

(** [client.send(messageStr)]. *)
Inductive action : Type :=
| Send (to : nat) (messageStr : string).

Definition readyState (st : server) (ws : nat) : option WebSocket.ready_state :=
  sockets st !! ws.

(** Lines 14 to 17: the new connection is added to the set. *)
Definition on_connection (st : server) : server :=
  let ws := length (sockets st) in
  Server (sockets st ++ [WebSocket.OPEN]) (set_add ws (clients st)).

(** [client !== ws && client.readyState === WebSocket.OPEN]. *)
Definition relay_target (st : server) (ws client : nat) : Prop :=
  client ≠ ws ∧ readyState st client = Some WebSocket.OPEN.

#[global] Instance relay_target_dec st ws client : Decision (relay_target st ws client).
Proof. unfold relay_target. apply _. Defined.

(** Lines 20 to 30.  [messageStr] is [message.toString()], the text of
    the received frame, which is all the handler uses of it. *)
Definition on_message (ws : nat) (messageStr : string) (st : server) : list action :=
  (λ client, Send client messageStr) <$> filter (relay_target st ws) (clients st).

(** Lines 33 to 36. *)
Definition on_close (ws : nat) (st : server) : server :=
  Server (sockets st) (set_delete ws (clients st)).

(** What the library does to a connection: it is CLOSING once the peer
    has started the closing handshake or the socket has failed, and
    CLOSED when [close] is emitted for it. *)
Definition ws_closing (ws : nat) (st : server) : server :=
  Server (<[ws := WebSocket.CLOSING]> (sockets st)) (clients st).

Definition ws_closed (ws : nat) (st : server) : server :=
  Server (<[ws := WebSocket.CLOSED]> (sockets st)) (clients st).

(** A connection is accepted, a frame arrives on one, one starts to
    close, one has closed. *)
Inductive event : Type :=
| Connection
| Message (ws : nat) (messageStr : string)
| Closing (ws : nat)
| Close (ws : nat).

Definition step (ev : event) (st : server) : server * list action :=
  match ev with
  | Connection => (on_connection st, [])
  | Message ws messageStr => (st, on_message ws messageStr st)
  | Closing ws => (ws_closing ws st, [])
  | Close ws => (on_close ws (ws_closed ws st), [])
  end.

(** The connection was accepted and [close] has not been emitted for
    it. *)
Definition live (st : server) (ws : nat) : Prop :=
  readyState st ws = Some WebSocket.OPEN
  ∨ readyState st ws = Some WebSocket.CLOSING.

#[global] Instance live_dec st ws : Decision (live st ws).
Proof. unfold live. apply _. Defined.

(** A frame or [close] comes from a live connection only, and only an
    OPEN connection starts to close. *)
Definition enabled (ev : event) (st : server) : Prop :=
  match ev with
  | Connection => True
  | Message ws _ | Close ws => live st ws
  | Closing ws => readyState st ws = Some WebSocket.OPEN
  end.

#[global] Instance enabled_dec ev st : Decision (enabled ev st).
Proof. destruct ev; simpl; apply _. Defined.

Fixpoint exec (evs : list event) (st : server) : option (server * list action) :=
  match evs with
  | [] => Some (st, [])
  | ev :: rest =>
      if decide (enabled ev st) then
        let '(st1, out1) := step ev st in
        '(st2, out2) ← exec rest st1;
        Some (st2, out1 ++ out2)
      else None
  end.

Inductive reachable : server -> Prop :=
| reachable_initial : reachable initial
| reachable_step ev st :
    reachable st -> enabled ev st -> reachable (step ev st).1.

(** How many texts [out] hands to connection [c]. *)
Definition sent_to (c : nat) (a : action) : Prop :=
  match a with
  | Send to _ => to = c
  end.

#[global] Instance sent_to_dec c a : Decision (sent_to c a).
Proof. destruct a; simpl; apply _. Defined.

Definition deliveries (c : nat) (out : list action) : nat :=
  length (filter (sent_to c) out).

(** How many connections [evs] accepts, and how many it closes. *)
Fixpoint accepted (evs : list event) : nat :=
  match evs with
  | [] => 0
  | Connection :: rest => S (accepted rest)
  | _ :: rest => accepted rest
  end.

Fixpoint closed (evs : list event) : nat :=
  match evs with
  | [] => 0
  | Close _ :: rest => S (closed rest)
  | _ :: rest => closed rest
  end.

End Broadcast.

(** * The checked relay of the deployment notes

    The server listed in the deployment notes has no rooms either: it
    hands every frame that parses, as received, to all the other
    connections of [wss.clients].  Its [connection], [pong], [error] and
    heartbeat code is that of [signaling/server.js], and its [close]
    handler only logs, so it runs on the same state with [rooms] left
    empty. *)

Module Checked.

Section checked.

Context {runtime : Runtime}.

(** [client.send(message)], and what the heartbeat asks of the
    library. *)
Inductive call : Type :=
| Forward (to : nat) (message : frame)
| Heartbeat (a : action).

(** Lines 30 and 31 of the listing: parse the frame and build the log
    line from [data.type] and a number.  Reading a property of [null]
    throws a TypeError. *)
Definition read_type (message : frame) : completion value :=
  data ← JSON_parse message;
  type ← match data with
         | VUndefined | VNull => Throw TypeError
         | _ => Normal (get data "type")
         end;
  _ ← ToString (toString_depth Body) type;
  Normal data.

(** Lines 34 to 38: the loop over [wss.clients]. *)
Definition broadcast (ws : nat) (message : frame) (st : server) : list call :=
  (λ client, Forward client message) <$> filter (relay_target st ws) (clients st).

(** The [message] handler; the [catch] clause logs the error and
    returns. *)
Definition on_message (ws : nat) (message : frame) (st : server) : list call :=
  match read_type message with
  | Normal _ => broadcast ws message st
  | Throw _ => []
  end.

(** The [close] handler only logs; the library has taken the
    connection out of [wss.clients]. *)
Definition step (ev : event) (st : server) : server * list call :=
  match ev with
  | Connection => (on_connection st, [])
  | Message ws message => (st, on_message ws message st)
  | Pong ws => (on_pong ws st, [])
  | Close ws => (ws_closed ws st, [])
  | Error ws => (on_error ws st, [])
  | Tick => let '(st1, out) := heartbeat st in (st1, Heartbeat <$> out)
  end.

Inductive reachable : server -> Prop :=
| reachable_initial : reachable initial
| reachable_step ev st :
    reachable st -> enabled ev st -> reachable (step ev st).1.

(** How many frames [out] hands to connection [c]. *)
Definition forwarded_to (c : nat) (a : call) : Prop :=
  match a with
  | Forward to _ => to = c
  | Heartbeat _ => False
  end.

#[global] Instance forwarded_to_dec c a : Decision (forwarded_to c a).
Proof. destruct a; simpl; apply _. Defined.

Definition forwards (c : nat) (out : list call) : nat :=
  length (filter (forwarded_to c) out).

End checked.

End Checked.

(** * Properties *)

Section properties.

Context {runtime : Runtime}.

(** ** Sets *)

Lemma elem_of_set_add (x y : nat) (s : list nat) :
  y ∈ set_add x s ↔ y = x ∨ y ∈ s.
Proof.
  unfold set_add. destruct (decide (x ∈ s)) as [Hin|Hin].
  - split; [by right | intros [->|]; done].
  - rewrite elem_of_app, list_elem_of_singleton. tauto.
Qed.

Lemma NoDup_set_add (x : nat) (s : list nat) : NoDup s → NoDup (set_add x s).
Proof.
  intros Hs. unfold set_add. destruct (decide (x ∈ s)) as [Hin|Hin]; [done|].
  apply NoDup_app. split_and!; [done| |apply NoDup_singleton].
  intros y Hy ->%list_elem_of_singleton. done.
Qed.

Lemma set_add_elem (x : nat) (s : list nat) : x ∈ s → set_add x s = s.
Proof. intros Hin. unfold set_add. by rewrite decide_True. Qed.

Lemma set_add_fresh (x : nat) (s : list nat) : x ∉ s → set_add x s = s ++ [x].
Proof. intros Hin. unfold set_add. by rewrite decide_False. Qed.

Lemma set_add_not_nil (x : nat) (s : list nat) : set_add x s ≠ [].
Proof.
  intros Hnil. assert (x ∈ set_add x s) as Hx by (apply elem_of_set_add; by left).
  rewrite Hnil in Hx. by apply not_elem_of_nil in Hx.
Qed.

Lemma elem_of_set_delete (x y : nat) (s : list nat) :
  y ∈ set_delete x s ↔ y ≠ x ∧ y ∈ s.
Proof. unfold set_delete. by rewrite list_elem_of_filter. Qed.

Lemma NoDup_set_delete (x : nat) (s : list nat) : NoDup s → NoDup (set_delete x s).
Proof. apply NoDup_filter. Qed.

(** ** Values and their conversions *)

Lemma value_ind_nested (P : value → Prop) :
  P VUndefined → P VNull → (∀ b, P (VBool b)) → (∀ n, P (VNumber n)) →
  (∀ s, P (VString s)) →
  (∀ loc elems, Forall P elems → P (VArray loc elems)) →
  (∀ loc props, Forall (λ p, P p.2) props → P (VObject loc props)) →
  ∀ v, P v.
Proof.
  intros HU HN HB HNum HS HA HO. fix IH 1.
  intros [| |b|n|s|loc elems|loc props];
    [exact HU|exact HN|apply HB|apply HNum|apply HS| |].
  - apply HA. revert elems. fix IHl 1.
    intros [|x l]; constructor; [apply IH|apply IHl].
  - apply HO. revert props. fix IHl 1.
    intros [|x l]; constructor; [apply IH|apply IHl].
Qed.

Lemma bind_Normal {A B : Type} (c : completion A) (k : A → completion B) b :
  JS.bind c k = Normal b ↔ ∃ a, c = Normal a ∧ k a = Normal b.
Proof.
  destruct c as [a|e]; cbn.
  - split; [by exists a|by intros (? & [= <-] & ?)].
  - split; [done|by intros (? & ? & _)].
Qed.

Lemma mapM_Normal {A B : Type} (f : A → completion B) l ys :
  mapM f l = Normal ys ↔ Forall2 (λ x y, f x = Normal y) l ys.
Proof.
  revert ys. induction l as [|x l IH]; intros ys; cbn [mapM].
  - split; [intros [= <-]; constructor|by intros ->%Forall2_nil_inv_l].
  - rewrite bind_Normal. split.
    + intros (y & Hy & (ys' & Hys & [= <-])%bind_Normal).
      constructor; [done|by apply IH].
    + intros (y & ys' & Hy & Hys & ->)%Forall2_cons_inv_l.
      exists y. split; [done|]. apply bind_Normal. exists ys'.
      split; [by apply IH|done].
Qed.

Lemma mapM_unit_Normal {A : Type} (f : A → completion unit) l :
  (∃ ys, mapM f l = Normal ys) ↔ ∀ x, x ∈ l → f x = Normal ().
Proof.
  split.
  - intros [ys Hys%mapM_Normal] x Hx.
    induction Hys as [|x' y l' ys' Hy Hys IH]; [by apply not_elem_of_nil in Hx|].
    apply elem_of_cons in Hx as [->|Hx]; [by destruct y|by apply IH].
  - intros Hall. exists (replicate (length l) ()). apply mapM_Normal.
    induction l as [|x l IH]; cbn; constructor.
    + apply Hall. by left.
    + apply IH. intros y Hy. apply Hall. by right.
Qed.

Lemma ToString_primitive stack v : is_primitive v = true → ToString stack v = Normal ().
Proof. by destruct v. Qed.

Lemma falsy_is_primitive v : ToBoolean v = false → is_primitive v = true.
Proof. by destruct v. Qed.

(** [ToString] throws exactly on the values that [unprintable] lists. *)
Lemma ToString_Normal stack v :
  ToString stack v = Normal () ↔ ¬ unprintable stack v.
Proof.
  revert stack. induction v as [| |b|n|s|loc elems IH|loc props _]
    using value_ind_nested; intros stack;
    try (split; [by inversion 2|done]).
  - destruct stack as [|stack]; cbn [ToString].
    + split; [done|]. intros Hno. destruct Hno. constructor.
    + transitivity (∀ x, x ∈ elems → ¬ unprintable stack x).
      * rewrite bind_Normal.
        transitivity (∃ ys : list unit,
          mapM (λ x, match x with
                     | VUndefined | VNull => Normal ()
                     | _ => ToString stack x
                     end) elems = Normal ys).
        { split; [intros (ys & ? & _); eauto|intros [ys ?]; eauto]. }
        rewrite mapM_unit_Normal. rewrite Forall_forall in IH.
        apply forall_proper. intros x.
        split; intros Hx Hin; specialize (Hx Hin); specialize (IH x Hin stack).
        -- destruct x; try (by apply IH); by inversion 1.
        -- destruct x; try (by apply IH); done.
      * split.
        -- intros Hall Hun. inversion Hun; subst. by eapply Hall.
        -- intros Hno x Hin Hun. apply Hno. by econstructor.
  - cbn [ToString]. case_bool_decide as Hown.
    + split; [done|]. intros Hno. destruct Hno. by constructor.
    + split; [|done]. intros _ Hun. by inversion Hun.
Qed.

(** A text is written only for a value other than [undefined]. *)
Lemma SerializeJSONProperty_Some stack v text :
  SerializeJSONProperty stack v = Normal text → v ≠ VUndefined → is_Some text.
Proof.
  destruct v, stack; cbn; try (by intros [= <-]; eauto); try done.
  - intros (? & _ & [= <-])%bind_Normal. eauto.
  - intros (? & _ & [= <-])%bind_Normal. eauto.
Qed.

(** Serialising gives the JSON value that the parsed value is when the
    value holds no number that JSON cannot write. *)
Lemma SerializeJSONProperty_writable stack v text :
  SerializeJSONProperty stack v = Normal text → writable v = true →
  text = Some (json_of v).
Proof.
  revert stack text. induction v as [| |b|n|s|loc elems IH|loc props IH]
    using value_ind_nested; intros stack text; cbn;
    try (by intros [= <-]).
  - intros [= <-] Hn. by destruct n.
  - destruct stack as [|stack]; [done|].
    intros (texts & Htexts%mapM_Normal & [= <-])%bind_Normal Hw.
    do 2 f_equal. revert Hw.
    induction Htexts as [|x t l ts Ht Hts IHl]; [done|]. cbn.
    apply Forall_cons in IH as [IHx IH].
    intros [Hx Hl]%andb_true_iff.
    rewrite (IHx _ _ Ht Hx). cbn. f_equal. by apply IHl.
  - destruct stack as [|stack]; [done|].
    intros (members & Hmembers%mapM_Normal & [= <-])%bind_Normal Hw.
    do 2 f_equal. revert Hw.
    induction Hmembers as [|[name x] m l ms Hm Hms IHl]; [done|]. cbn.
    apply Forall_cons in IH as [IHx IH]. cbn in IHx, Hm.
    intros [Hx Hl]%andb_true_iff.
    apply bind_Normal in Hm as (t & Ht & [= <-]).
    rewrite (IHx _ _ Ht Hx). cbn. f_equal. by apply IHl.
Qed.

Lemma mapM_is_Normal {A B : Type} (f : A → completion B) l :
  (∃ ys, mapM f l = Normal ys) ↔ ∀ x, x ∈ l → ∃ y, f x = Normal y.
Proof.
  induction l as [|x l IH]; cbn [mapM].
  - split; [by intros _ x ?%not_elem_of_nil|eauto].
  - split.
    + intros [ys (y & Hy & (ys' & Hys & _)%bind_Normal)%bind_Normal] x'.
      intros [->|Hin]%elem_of_cons; [eauto|].
      apply IH; eauto.
    + intros Hall. destruct (Hall x) as [y Hy]; [by left|].
      destruct (proj2 IH) as [ys Hys].
      { intros x' Hin. apply Hall. by right. }
      exists (y :: ys). by rewrite Hy, Hys.
Qed.

(** [JSON.stringify] returns exactly on the values whose arrays and
    objects are nested no deeper than the call may go. *)
Lemma SerializeJSONProperty_Normal stack v :
  (∃ text, SerializeJSONProperty stack v = Normal text) ↔
  nested_within stack v = true.
Proof.
  revert stack. induction v as [| |b|n|s|loc elems IH|loc props IH]
    using value_ind_nested; intros stack; cbn;
    try (split; [done|eauto]).
  - destruct stack as [|stack]; [split; [by intros [? ?]|done]|].
    rewrite forallb_forall. rewrite Forall_forall in IH.
    transitivity (∃ ys, mapM (SerializeJSONProperty stack) elems = Normal ys).
    { split.
      - intros [text (ys & Hys & _)%bind_Normal]. eauto.
      - intros [ys Hys]. rewrite Hys. cbn. eauto. }
    rewrite mapM_is_Normal.
    apply forall_proper. intros x.
    rewrite <-list_elem_of_In.
    split; intros Hx Hin; by apply (IH x Hin stack), Hx.
  - destruct stack as [|stack]; [split; [by intros [? ?]|done]|].
    rewrite forallb_forall. rewrite Forall_forall in IH.
    transitivity (∃ ys, mapM (λ p : string * value,
                    JS.bind (SerializeJSONProperty stack p.2) (λ text,
                    Normal (pair p.1 <$> text))) props = Normal ys).
    { split.
      - intros [text (ys & Hys & _)%bind_Normal]. eauto.
      - intros [ys Hys]. rewrite Hys. cbn. eauto. }
    rewrite mapM_is_Normal.
    apply forall_proper. intros p.
    rewrite <-list_elem_of_In.
    split; intros Hp Hin; specialize (Hp Hin); specialize (IH p Hin stack).
    + apply IH. destruct Hp as [y (t & Ht & _)%bind_Normal]. eauto.
    + apply IH in Hp as [t Ht]. rewrite Ht. cbn. eauto.
Qed.

(** ** The message handler, case by case *)

Lemma read_message_inv message data type roomId senderId payload :
  read_message message = Normal (data, (type, roomId, senderId, payload)) →
  message = Json data
  ∧ type = get data "type" ∧ roomId = get data "roomId"
  ∧ senderId = get data "senderId" ∧ payload = get data "payload"
  ∧ log_received roomId type senderId = Normal ().
Proof.
  unfold read_message. destruct message as [|d]; [done|].
  cbn [JSON_parse mbind completion_bind JS.bind].
  destruct (destructure d) as [[[[t r] s] p]|] eqn:Hfields;
    cbn [mbind completion_bind JS.bind]; [|done].
  destruct (log_received r t s) as [[]|] eqn:Hlog;
    cbn [mbind completion_bind JS.bind]; [|done].
  intros [= <- <- <- <- <-]. rewrite Hlog.
  unfold destructure in Hfields. by destruct d; simplify_eq.
Qed.

Lemma log_received_Normal roomId type senderId :
  log_received roomId type senderId = Normal () ↔
  ToString (toString_depth Body) roomId = Normal ()
  ∧ ToString (toString_depth Body) type = Normal ()
  ∧ ToString (toString_depth Body) (or_else senderId (VString "unknown"))
    = Normal ().
Proof.
  unfold log_received.
  destruct (ToString (toString_depth Body) roomId) as [[]|];
    cbn [mbind completion_bind JS.bind]; [|naive_solver].
  destruct (ToString (toString_depth Body) type) as [[]|];
    cbn [mbind completion_bind JS.bind]; naive_solver.
Qed.

(** Line 44 converts, where line 33 did, what line 33 has converted. *)
Lemma log_joined_Normal roomId type senderId :
  log_received roomId type senderId = Normal () →
  log_joined roomId senderId = Normal ().
Proof.
  intros (Hr & _ & Hs)%log_received_Normal. unfold log_joined. rewrite Hr.
  cbn [mbind completion_bind JS.bind]. unfold or_else in Hs.
  destruct (ToBoolean senderId) eqn:Htruthy; [done|].
  by apply ToString_primitive, falsy_is_primitive.
Qed.

(** Line 62 converts a string and the identifier of the room; an
    identifier that is no array and no object is converted wherever the
    conversion is called. *)
Lemma log_relayed_primitive roomId type :
  is_primitive roomId = true → is_signaling type = true →
  log_relayed roomId type = Normal ().
Proof.
  intros Hroom Hsig. unfold log_relayed.
  rewrite (ToString_primitive _ roomId Hroom).
  cbn [mbind completion_bind JS.bind]. apply ToString_primitive.
  unfold is_signaling, same_value_zero in Hsig. simpl in Hsig.
  by destruct type.
Qed.

Lemma on_message_read ws message st data type roomId senderId payload :
  read_message message = Normal (data, (type, roomId, senderId, payload)) →
  message_body ws message st = dispatch ws data type roomId senderId st
  ∧ on_message ws message st = (dispatch ws data type roomId senderId st).1.
Proof.
  intros Hread.
  assert (message_body ws message st = dispatch ws data type roomId senderId st)
    as Hbody; [|by unfold on_message, Handler.try_catch; rewrite Hbody].
  unfold message_body, mbind, handler_bind, Handler.bind, Handler.lift.
  rewrite Hread. by destruct (dispatch _ _ _ _ _ _) as [[??]?].
Qed.

Lemma on_message_throw ws message st e :
  read_message message = Throw e →
  message_body ws message st = (st, [], Throw e)
  ∧ on_message ws message st = (st, []).
Proof.
  intros Hread.
  assert (message_body ws message st = (st, [], Throw e))
    as Hbody; [|by unfold on_message, Handler.try_catch; rewrite Hbody].
  unfold message_body, mbind, handler_bind, Handler.bind, Handler.lift.
  by rewrite Hread.
Qed.

Lemma is_signaling_spec type :
  is_signaling type = true ↔
  type = VString "offer" ∨ type = VString "answer" ∨ type = VString "ice-candidate".
Proof.
  unfold is_signaling, same_value_zero. simpl.
  rewrite !orb_true_iff, !bool_decide_eq_true.
  split.
  - intros [H|[H|[H|H]]]; [| | |done];
      destruct type as [| | |[]| | |]; simplify_eq/=; auto.
  - intros [->|[->| ->]]; simpl; auto.
Qed.

Lemma strict_eq_string_spec a lit :
  strict_eq_string a lit = true ↔ a = VString lit.
Proof.
  destruct a; simpl; try (split; [done|by intros [=]]).
  rewrite String.eqb_eq. split; [by intros ->|by intros [= ->]].
Qed.

Lemma is_signaling_not_join type :
  is_signaling type = true → strict_eq_string type "join-room" = false.
Proof. intros [->|[->| ->]]%is_signaling_spec; done. Qed.

(** What the [join-room] branch sends: the acknowledgment, when it can
    be serialised. *)
Lemma join_room_run ws roomId senderId st :
  log_joined roomId senderId = Normal () →
  join_room ws roomId senderId st =
  match JSON_stringify Body
          (joined roomId (room_size roomId (join_room_writes ws roomId senderId st)))
  with
  | Normal text => (join_room_writes ws roomId senderId st, [Send ws text], Normal ())
  | Throw e => (join_room_writes ws roomId senderId st, [], Throw e)
  end.
Proof.
  intros Hlog.
  unfold join_room, mbind, handler_bind, Handler.bind, Handler.write,
    Handler.lift, Handler.read, Handler.call.
  rewrite Hlog. by destruct (JSON_stringify _ _).
Qed.

(** What the relay branch sends.  With no target nothing is evaluated.
    Otherwise the first target decides: the loop ends there when the
    value cannot be serialised, and after the first send when the log
    line cannot be written; else every target is sent the text. *)
Lemma forEach_relay ws data roomId type st room :
  Handler.forEach room (λ client,
    target ← Handler.read (λ st, bool_decide (relay_target st ws client));
    Handler.when target (
      text ← Handler.lift (JSON_stringify Callback data);
      _ ← Handler.call (Send client text);
      Handler.lift (log_relayed roomId type))) st =
  match filter (relay_target st ws) room with
  | [] => (st, [], Normal ())
  | c :: targets =>
      match JSON_stringify Callback data with
      | Normal text =>
          match log_relayed roomId type with
          | Normal _ => (st, (λ c, Send c text) <$> c :: targets, Normal ())
          | Throw e => (st, [Send c text], Throw e)
          end
      | Throw e => (st, [], Throw e)
      end
  end.
Proof.
  match goal with |- Handler.forEach _ ?b _ = _ => set (body := b) end.
  assert (∀ x, body x st =
    if decide (relay_target st ws x) then
      match JSON_stringify Callback data with
      | Normal text => (st, [Send x text], log_relayed roomId type)
      | Throw e => (st, [], Throw e)
      end
    else (st, [], Normal ())) as Hbody.
  { intros x. unfold body, mbind, handler_bind, Handler.bind, Handler.read.
    destruct (decide (relay_target st ws x)) as [Hx|Hx].
    - rewrite bool_decide_eq_true_2 by done.
      unfold Handler.when, Handler.lift, Handler.call.
      by destruct (JSON_stringify Callback data).
    - by rewrite bool_decide_eq_false_2 by done. }
  clearbody body.
  induction room as [|x room IH]; cbn [Handler.forEach]; [done|].
  unfold Handler.bind. rewrite Hbody, filter_cons.
  destruct (decide (relay_target st ws x)) as [Hx|Hx];
    destruct (JSON_stringify Callback data) as [text|e];
    destruct (log_relayed roomId type) as [[]|e'];
    rewrite ?IH; by destruct (filter _ room).
Qed.

Lemma relay_run ws data roomId type st :
  relay ws data roomId type st =
  match rooms_get roomId st with
  | Some room =>
      match filter (relay_target st ws) room with
      | [] => (st, [], Normal ())
      | c :: targets =>
          match JSON_stringify Callback data with
          | Normal text =>
              match log_relayed roomId type with
              | Normal _ => (st, (λ c, Send c text) <$> c :: targets, Normal ())
              | Throw e => (st, [Send c text], Throw e)
              end
          | Throw e => (st, [], Throw e)
          end
      end
  | None => (st, [], Normal ())
  end.
Proof.
  pose proof (forEach_relay ws data roomId type st) as Hloop.
  unfold relay. unfold mbind at 1. unfold handler_bind at 1.
  unfold Handler.bind at 1. unfold Handler.read at 1.
  destruct (rooms_get roomId st) as [room|]; [|done].
  rewrite (Hloop room).
  destruct (filter _ room) as [|c targets]; [done|].
  destruct (JSON_stringify Callback data) as [text|e]; [|done].
  by destruct (log_relayed roomId type) as [[]|e].
Qed.

Lemma dispatch_join ws data roomId senderId st :
  dispatch ws data (VString "join-room") roomId senderId st
  = join_room ws roomId senderId st.
Proof.
  unfold dispatch.
  change (strict_eq_string (VString "join-room") "join-room") with true.
  change (is_signaling (VString "join-room")) with false.
  unfold mbind, handler_bind, Handler.bind, Handler.when, Handler.ret.
  destruct (join_room ws roomId senderId st) as [[st1 out1] [[]|e]]; [|done].
  by rewrite app_nil_r.
Qed.

Lemma dispatch_signaling ws data type roomId senderId st :
  is_signaling type = true →
  dispatch ws data type roomId senderId st = relay ws data roomId type st.
Proof.
  intros Hsig. unfold dispatch.
  rewrite (is_signaling_not_join _ Hsig), Hsig.
  unfold mbind, handler_bind, Handler.bind, Handler.when, Handler.ret.
  by destruct (relay ws data roomId type st) as [[st1 out1] c].
Qed.

Lemma dispatch_other ws data type roomId senderId st :
  strict_eq_string type "join-room" = false → is_signaling type = false →
  dispatch ws data type roomId senderId st = (st, [], Normal ()).
Proof. intros Hjoin Hsig. unfold dispatch. by rewrite Hjoin, Hsig. Qed.

(** The handler on a [join-room] frame that it reads. *)
Lemma on_message_join ws message st data roomId senderId payload :
  read_message message
    = Normal (data, (VString "join-room", roomId, senderId, payload)) →
  message_body ws message st =
  match JSON_stringify Body
          (joined roomId (room_size roomId (join_room_writes ws roomId senderId st)))
  with
  | Normal text => (join_room_writes ws roomId senderId st, [Send ws text], Normal ())
  | Throw e => (join_room_writes ws roomId senderId st, [], Throw e)
  end
  ∧ (on_message ws message st).1 = join_room_writes ws roomId senderId st
  ∧ (on_message ws message st).2 =
    match JSON_stringify Body
            (joined roomId (room_size roomId (join_room_writes ws roomId senderId st)))
    with
    | Normal text => [Send ws text]
    | Throw _ => []
    end.
Proof.
  intros Hread.
  destruct (on_message_read ws message st _ _ _ _ _ Hread) as [-> ->].
  destruct (read_message_inv _ _ _ _ _ _ Hread) as (_ & _ & _ & _ & _ & Hlog).
  rewrite dispatch_join, join_room_run by by eapply log_joined_Normal.
  by destruct (JSON_stringify _ _).
Qed.

(** The handler on a signaling frame that it reads. *)
Lemma on_message_signaling ws message st data type roomId senderId payload :
  read_message message = Normal (data, (type, roomId, senderId, payload)) →
  is_signaling type = true →
  message_body ws message st = relay ws data roomId type st
  ∧ on_message ws message st = (relay ws data roomId type st).1
  ∧ (on_message ws message st).1 = st.
Proof.
  intros Hread Hsig.
  destruct (on_message_read ws message st _ _ _ _ _ Hread) as [-> ->].
  rewrite dispatch_signaling by done. split_and!; [done..|].
  rewrite relay_run.
  destruct (rooms_get roomId st) as [room|]; [|done].
  destruct (filter _ room) as [|c targets]; [done|].
  destruct (JSON_stringify Callback data) as [text|e]; [|done].
  by destruct (log_relayed roomId type) as [[]|e].
Qed.

(** When the value can be serialised and the log line written, the text
    goes to every target. *)
Lemma on_message_relayed ws message st data type roomId senderId payload text :
  read_message message = Normal (data, (type, roomId, senderId, payload)) →
  is_signaling type = true →
  JSON_stringify Callback data = Normal text →
  log_relayed roomId type = Normal () →
  message_body ws message st =
    (st, from_option (λ room, (λ c, Send c text)
                                <$> filter (relay_target st ws) room) []
           (rooms_get roomId st), Normal ())
  ∧ (on_message ws message st).2 =
    from_option (λ room, (λ c, Send c text) <$> filter (relay_target st ws) room) []
      (rooms_get roomId st).
Proof.
  intros Hread Hsig Htext Hlog.
  destruct (on_message_signaling ws message st _ _ _ _ _ Hread Hsig)
    as (-> & -> & _).
  rewrite relay_run, Htext, Hlog.
  destruct (rooms_get roomId st) as [room|]; [|done]. cbn [from_option].
  by destruct (filter _ room).
Qed.

(** When the value cannot be serialised, nothing is sent. *)
Lemma on_message_not_serialised ws message st data type roomId senderId payload e :
  read_message message = Normal (data, (type, roomId, senderId, payload)) →
  is_signaling type = true →
  JSON_stringify Callback data = Throw e →
  on_message ws message st = (st, []).
Proof.
  intros Hread Hsig Htext.
  destruct (on_message_signaling ws message st _ _ _ _ _ Hread Hsig)
    as (_ & -> & _).
  rewrite relay_run, Htext.
  destruct (rooms_get roomId st) as [room|]; [|done].
  by destruct (filter _ room).
Qed.

(** When the log line of the callback cannot be written, the loop ends
    after the first send. *)
Lemma on_message_not_logged ws message st data type roomId senderId payload text e :
  read_message message = Normal (data, (type, roomId, senderId, payload)) →
  is_signaling type = true →
  JSON_stringify Callback data = Normal text →
  log_relayed roomId type = Throw e →
  on_message ws message st =
    (st, from_option (λ room, (λ c, Send c text)
                                <$> take 1 (filter (relay_target st ws) room)) []
           (rooms_get roomId st)).
Proof.
  intros Hread Hsig Htext Hlog.
  destruct (on_message_signaling ws message st _ _ _ _ _ Hread Hsig)
    as (_ & -> & _).
  rewrite relay_run, Htext, Hlog.
  destruct (rooms_get roomId st) as [room|]; [|done]. cbn [from_option].
  by destruct (filter _ room).
Qed.

(** Whatever a signaling frame sends is the text of its value, sent to a
    target in the room that its [roomId] names. *)
Lemma on_message_signaling_sent ws message st data type roomId senderId payload a :
  read_message message = Normal (data, (type, roomId, senderId, payload)) →
  is_signaling type = true →
  a ∈ (on_message ws message st).2 →
  ∃ text room c,
    JSON_stringify Callback data = Normal text
    ∧ rooms_get roomId st = Some room
    ∧ c ∈ room ∧ relay_target st ws c
    ∧ a = Send c text.
Proof.
  intros Hread Hsig.
  destruct (on_message_signaling ws message st _ _ _ _ _ Hread Hsig)
    as (_ & -> & _).
  rewrite relay_run.
  destruct (rooms_get roomId st) as [room|]; [|by intros ?%not_elem_of_nil].
  destruct (filter _ room) as [|c targets] eqn:Htargets;
    [by intros ?%not_elem_of_nil|].
  assert (∀ x, x ∈ c :: targets → x ∈ room ∧ relay_target st ws x) as Hin.
  { intros x. rewrite <- Htargets. by rewrite list_elem_of_filter; intros []. }
  destruct (JSON_stringify Callback data) as [text|e];
    [|by intros ?%not_elem_of_nil].
  destruct (log_relayed roomId type) as [[]|e]; cbn [fst snd].
  - intros (x & -> & Hx)%list_elem_of_fmap.
    destruct (Hin x Hx). by exists text, room, x.
  - intros ->%list_elem_of_singleton.
    destruct (Hin c) as [??]; [by left|]. by exists text, room, c.
Qed.

(** ** What each handler changes *)

Ltac fields :=
  cbn [rooms clients sockets with_rooms with_clients with_sockets
       fst snd id default from_option] in *.

Lemma rooms_has_Some roomId st room :
  rooms st !! key_of roomId = Some room → rooms_has roomId st = true.
Proof. intros Hroom. apply bool_decide_eq_true. eauto. Qed.

Lemma rooms_has_None roomId st :
  rooms st !! key_of roomId = None → rooms_has roomId st = false.
Proof. intros Hroom. apply bool_decide_eq_false. rewrite Hroom. by intros [? ?]. Qed.

Lemma join_room_rooms ws roomId senderId st k :
  rooms (join_room_writes ws roomId senderId st) !! k =
  if decide (k = key_of roomId)
  then Some (set_add ws (default [] (rooms st !! key_of roomId)))
  else rooms st !! k.
Proof.
  unfold join_room_writes. cbn [fst].
  destruct (rooms st !! key_of roomId) as [room|] eqn:Hroom.
  - rewrite (rooms_has_Some _ _ _ Hroom). cbn.
    destruct (decide (k = key_of roomId)) as [->|Hne].
    + by rewrite lookup_alter_eq, Hroom.
    + by rewrite lookup_alter_ne.
  - rewrite (rooms_has_None _ _ Hroom). cbn.
    destruct (decide (k = key_of roomId)) as [->|Hne].
    + by rewrite lookup_alter_eq, lookup_insert_eq.
    + by rewrite lookup_alter_ne, lookup_insert_ne.
Qed.

Lemma join_room_sockets ws roomId senderId st :
  sockets (join_room_writes ws roomId senderId st) =
  alter (WebSocket.set_room roomId senderId) ws (sockets st).
Proof. unfold join_room_writes. by destruct (negb (rooms_has roomId st)). Qed.

Lemma join_room_clients ws roomId senderId st :
  clients (join_room_writes ws roomId senderId st) = clients st.
Proof. unfold join_room_writes. by destruct (negb (rooms_has roomId st)). Qed.

Lemma on_close_rooms ws st k :
  rooms (on_close ws st) !! k =
  if decide (cleaned_room ws st = Some k)
  then match set_delete ws (default [] (rooms st !! k)) with
       | [] => None
       | room => Some room
       end
  else rooms st !! k.
Proof.
  unfold on_close, cleaned_room, room_size.
  destruct (ToBoolean (roomId st ws)); cbn [andb]; [|by rewrite decide_False].
  destruct (rooms st !! key_of (roomId st ws)) as [room|] eqn:Hroom.
  - rewrite (rooms_has_Some _ _ _ Hroom). fields.
    rewrite lookup_alter_eq, Hroom. cbn [fmap option_fmap option_map]. fields.
    destruct (decide (Some (key_of (roomId st ws)) = Some k)) as [[= <-]|Hne].
    + rewrite Hroom. fields.
      destruct (set_delete ws room) as [|c room'] eqn:Hdel; cbn [length Nat.eqb]; fields.
      * by rewrite lookup_delete_eq.
      * by rewrite lookup_alter_eq, Hroom; cbn; rewrite Hdel.
    + assert (key_of (roomId st ws) ≠ k) by congruence.
      destruct (length (set_delete ws room) =? 0)%nat; fields.
      * by rewrite lookup_delete_ne, lookup_alter_ne.
      * by rewrite lookup_alter_ne.
  - rewrite (rooms_has_None _ _ Hroom).
    by rewrite decide_False.
Qed.

Lemma on_close_sockets ws st : sockets (on_close ws st) = sockets st.
Proof.
  unfold on_close.
  destruct (ToBoolean (roomId st ws) && rooms_has (roomId st ws) st); [|done].
  by destruct (_ =? _)%nat.
Qed.

Lemma on_close_clients ws st : clients (on_close ws st) = clients st.
Proof.
  unfold on_close.
  destruct (ToBoolean (roomId st ws) && rooms_has (roomId st ws) st); [|done].
  by destruct (_ =? _)%nat.
Qed.

Lemma heartbeat_visit_frame ws st :
  clients (heartbeat_visit ws st).1 = clients st
  ∧ rooms (heartbeat_visit ws st).1 = rooms st
  ∧ length (sockets (heartbeat_visit ws st).1) = length (sockets st).
Proof.
  unfold heartbeat_visit. destruct (negb (isAlive st ws)); cbn;
    by rewrite length_alter.
Qed.

Lemma heartbeat_loop_frame todo st :
  clients (heartbeat_loop todo st).1 = clients st
  ∧ rooms (heartbeat_loop todo st).1 = rooms st
  ∧ length (sockets (heartbeat_loop todo st).1) = length (sockets st).
Proof.
  revert st. induction todo as [|ws rest IH]; intros st; [done|].
  cbn [heartbeat_loop].
  destruct (heartbeat_visit_frame ws st) as (Hc & Hr & Hl).
  destruct (heartbeat_visit ws st) as [st1 a]. cbn [fst] in *.
  destruct (IH st1) as (Hc' & Hr' & Hl').
  destruct (heartbeat_loop rest st1) as [st2 out]. cbn [fst] in *.
  split_and!; congruence.
Qed.

(** A frame either joins a room or leaves the state as it is. *)
Lemma on_message_state ws message st :
  (on_message ws message st).1 =
  match read_message message with
  | Normal (_, (type, roomId, senderId, _)) =>
      if strict_eq_string type "join-room"
      then (join_room_writes ws roomId senderId st)
      else st
  | Throw _ => st
  end.
Proof.
  destruct (read_message message)
    as [[data [[[type roomId] senderId] payload]]|e] eqn:Hread.
  - destruct (strict_eq_string type "join-room") eqn:Hjoin.
    + apply strict_eq_string_spec in Hjoin as ->.
      by destruct (on_message_join ws message st _ _ _ _ Hread) as (_ & -> & _).
    + destruct (on_message_read ws message st _ _ _ _ _ Hread) as [_ ->].
      destruct (is_signaling type) eqn:Hsig.
      * destruct (on_message_signaling ws message st _ _ _ _ _ Hread Hsig)
          as (_ & _ & Hst).
        by destruct (on_message_read ws message st _ _ _ _ _ Hread) as [_ <-].
      * by rewrite dispatch_other.
  - by destruct (on_message_throw ws message st e Hread) as [_ ->].
Qed.

Lemma on_message_cases ws message st :
  (∃ data roomId senderId payload,
      read_message message
        = Normal (data, (VString "join-room", roomId, senderId, payload))
      ∧ (on_message ws message st).1 = join_room_writes ws roomId senderId st)
  ∨ (on_message ws message st).1 = st.
Proof.
  rewrite on_message_state.
  destruct (read_message message)
    as [[data [[[type roomId] senderId] payload]]|e] eqn:Hread; [|by right].
  destruct (strict_eq_string type "join-room") eqn:Hjoin; [|by right].
  apply strict_eq_string_spec in Hjoin as ->. left. eauto 6.
Qed.

Lemma on_message_frame ws message st :
  clients (on_message ws message st).1 = clients st
  ∧ length (sockets (on_message ws message st).1) = length (sockets st).
Proof.
  destruct (on_message_cases ws message st)
    as [(data & roomId & senderId & payload & _ & ->)| ->]; [|done].
  by rewrite join_room_clients, join_room_sockets, length_alter.
Qed.

Lemma step_length ev st :
  (length (sockets st) ≤ length (sockets (step ev st).1))%nat.
Proof.
  destruct ev as [|c message|c|c|c|]; cbn [step fst].
  - unfold on_connection. fields. rewrite length_app. lia.
  - by destruct (on_message_frame c message st) as [_ ->].
  - unfold on_pong. fields. by rewrite length_alter.
  - rewrite on_close_sockets. unfold ws_closed. fields. by rewrite length_alter.
  - done.
  - destruct (heartbeat_loop_frame (clients st) st) as (_ & _ & Hl).
    unfold heartbeat. by rewrite Hl.
Qed.

Lemma step_clients ev st ws :
  ws < length (sockets st) → ws ∈ clients (step ev st).1 →
  ws ∈ clients st ∧ ev ≠ Close ws.
Proof.
  intros Hlt. destruct ev as [|c message|c|c|c|]; cbn [step fst].
  - unfold on_connection. fields. intros [->|?]%elem_of_set_add; [lia|done].
  - by destruct (on_message_frame c message st) as [-> _].
  - done.
  - rewrite on_close_clients. unfold ws_closed. fields.
    intros [Hne ?]%elem_of_set_delete. split; [done|]. by intros [= ->].
  - done.
  - destruct (heartbeat_loop_frame (clients st) st) as (Hc & _ & _).
    unfold heartbeat. by rewrite Hc.
Qed.

(** ** Well-formed states *)

Lemma wf_initial : wf initial.
Proof.
  split; cbn; intros *.
  - apply NoDup_nil_2.
  - by intros ?%not_elem_of_nil.
  - by rewrite lookup_empty.
  - by rewrite lookup_empty.
Qed.

Lemma wf_on_connection st : wf st → wf (on_connection st).
Proof.
  intros [Hnd Hlt Hrn Hre]. unfold on_connection. split; fields.
  - by apply NoDup_set_add.
  - intros ws [->|Hin%Hlt]%elem_of_set_add; rewrite length_app; cbn; lia.
  - done.
  - done.
Qed.

Lemma wf_join_room ws roomId senderId st :
  wf st → wf (join_room_writes ws roomId senderId st).
Proof.
  intros [Hnd Hlt Hrn Hre]. split.
  - by rewrite join_room_clients.
  - intros c. rewrite join_room_clients, join_room_sockets, length_alter. apply Hlt.
  - intros k room. rewrite join_room_rooms.
    destruct (decide (k = key_of roomId)) as [->|Hne]; [|by apply Hrn].
    intros [= <-]. apply NoDup_set_add.
    destruct (rooms st !! key_of roomId) as [old|] eqn:Hold; cbn.
    + by eapply Hrn.
    + apply NoDup_nil_2.
  - intros k room. rewrite join_room_rooms.
    destruct (decide (k = key_of roomId)) as [->|Hne]; [|by apply Hre].
    intros [= <-]. apply set_add_not_nil.
Qed.

Lemma wf_on_message ws message st : wf st → wf (on_message ws message st).1.
Proof.
  intros Hwf.
  destruct (on_message_cases ws message st)
    as [(data & roomId & senderId & payload & _ & ->)| ->]; [|done].
  by apply wf_join_room.
Qed.

Lemma wf_on_pong ws st : wf st → wf (on_pong ws st).
Proof.
  intros [Hnd Hlt Hrn Hre]. unfold on_pong. split; fields; try done.
  intros c. rewrite length_alter. apply Hlt.
Qed.

Lemma wf_ws_closed ws st : wf st → wf (ws_closed ws st).
Proof.
  intros [Hnd Hlt Hrn Hre]. unfold ws_closed. split; fields; try done.
  - by apply NoDup_set_delete.
  - intros c [_ Hin]%elem_of_set_delete. rewrite length_alter. by apply Hlt.
Qed.

Lemma wf_on_close ws st : wf st → wf (on_close ws st).
Proof.
  intros [Hnd Hlt Hrn Hre]. split.
  - by rewrite on_close_clients.
  - intros c. rewrite on_close_clients, on_close_sockets. apply Hlt.
  - intros k room. rewrite on_close_rooms.
    destruct (decide (cleaned_room ws st = Some k)); [|by apply Hrn].
    destruct (rooms st !! k) as [old|] eqn:Hold; cbn; [|done].
    pose proof (NoDup_set_delete ws old (Hrn _ _ Hold)) as Hdel.
    destruct (set_delete ws old); [done|]. by intros [= <-].
  - intros k room. rewrite on_close_rooms.
    destruct (decide (cleaned_room ws st = Some k)); [|by apply Hre].
    destruct (set_delete ws (default [] (rooms st !! k))); [done|].
    by intros [= <-].
Qed.

Lemma wf_heartbeat st : wf st → wf (heartbeat st).1.
Proof.
  intros [Hnd Hlt Hrn Hre]. unfold heartbeat.
  destruct (heartbeat_loop_frame (clients st) st) as (Hc & Hr & Hl).
  split; rewrite ?Hc, ?Hr, ?Hl; done.
Qed.

Lemma wf_step ev st : wf st → wf (step ev st).1.
Proof.
  intros Hwf. destruct ev as [|ws message|ws|ws|ws|]; cbn [step fst].
  - by apply wf_on_connection.
  - by apply wf_on_message.
  - by apply wf_on_pong.
  - by apply wf_on_close, wf_ws_closed.
  - done.
  - by apply wf_heartbeat.
Qed.

Lemma reachable_wf st : reachable st → wf st.
Proof. induction 1; [apply wf_initial|by apply wf_step]. Qed.

Lemma reachable_exec evs st st' out :
  reachable st → exec evs st = Some (st', out) → reachable st'.
Proof.
  revert st st' out. induction evs as [|ev rest IH]; intros st st' out Hst; cbn.
  - by intros [= <- _].
  - destruct (decide (enabled ev st)) as [Hen|]; [|done].
    pose proof (reachable_step ev st Hst Hen) as Hst1.
    destruct (step ev st) as [st1 out1]. cbn [fst] in Hst1.
    destruct (exec rest st1) as [[st2 out2]|] eqn:Hrest; [|done].
    cbn. intros [= <- _]. by eapply IH.
Qed.

Lemma reachable_state_after evs :
  is_Some (exec evs initial) → reachable (state_after evs).
Proof.
  intros [[st out] Hexec]. unfold state_after. rewrite Hexec. cbn.
  eapply reachable_exec; [apply reachable_initial|done].
Qed.

(** ** Joining a room *)

(** The acknowledgment, as it is written: the room identifier is there
    as [JSON.stringify] writes it, which is not at all when it is
    [undefined], and the count is a number. *)
Lemma joined_text_shape roomId peersInRoom text :
  JSON_stringify Body (joined roomId peersInRoom) = Normal text →
  ∃ written,
    SerializeJSONProperty (stringify_depth Body - 1) roomId = Normal written
    ∧ text = Some (JObject
               ([("type", JString "joined")]
                ++ from_option (λ r, [("roomId", r)]) [] written
                ++ [("peersInRoom", JNumber (Integer (Z.of_nat peersInRoom)))]))
    ∧ (writable roomId = true → written = Some (json_of roomId)).
Proof.
  unfold JSON_stringify, joined.
  destruct (stringify_depth Body) as [|stack]; [done|].
  cbn [SerializeJSONProperty mapM JS.bind fst snd fmap option_fmap option_map].
  rewrite Nat.sub_succ, Nat.sub_0_r.
  destruct (SerializeJSONProperty stack roomId) as [written|] eqn:Hwritten;
    cbn [JS.bind]; [|done].
  intros [= <-]. exists written. split_and!; [done| |].
  - by destruct written.
  - intros Hw. by eapply SerializeJSONProperty_writable.
Qed.

(** C1, amended.  A [join-room] frame that the handler reads makes the
    room of its [roomId]: an unseen identifier gets a room whose only
    member is the joining connection; a connection already in the room is
    not inserted again and a new one is appended, so that a member set
    without duplicates stays so.  When the acknowledgment can be
    serialised, the only action is that acknowledgment, sent to the
    joining connection: it carries the type [joined], the [roomId] as
    [JSON.stringify] writes it and the size of the room after the
    insertion.  When it cannot, nothing is sent. *)
Theorem join_room_acknowledged st ws message data roomId senderId payload :
  read_message message
    = Normal (data, (VString "join-room", roomId, senderId, payload)) →
  (rooms_has roomId st = false →
     rooms_get roomId (on_message ws message st).1 = Some [ws])
  ∧ (∀ room, rooms_get roomId st = Some room →
       rooms_get roomId (on_message ws message st).1
         = Some (if decide (ws ∈ room) then room else room ++ [ws]))
  ∧ (∃ room',
       rooms_get roomId (on_message ws message st).1 = Some room'
       ∧ ws ∈ room'
       ∧ (reachable st → NoDup room')
       ∧ match JSON_stringify Body (joined roomId (length room')) with
         | Normal text =>
             (on_message ws message st).2 = [Send ws text]
             ∧ ∃ written,
                 SerializeJSONProperty (stringify_depth Body - 1) roomId = Normal written
                 ∧ text = Some (JObject
                            ([("type", JString "joined")]
                             ++ from_option (λ r, [("roomId", r)]) [] written
                             ++ [("peersInRoom",
                                  JNumber (Integer (Z.of_nat (length room'))))]))
                 ∧ (writable roomId = true → written = Some (json_of roomId))
         | Throw _ => (on_message ws message st).2 = []
         end).
Proof.
  intros Hread.
  destruct (on_message_join ws message st _ _ _ _ Hread) as (_ & -> & ->).
  unfold rooms_get, room_size.
  rewrite join_room_rooms, decide_True by done.
  split_and!.
  - intros Hhas. apply bool_decide_eq_false in Hhas.
    destruct (rooms st !! key_of roomId) as [room|] eqn:Hroom.
    + destruct Hhas. eauto.
    + done.
  - intros room ->. done.
  - eexists. split_and!; [done| | |].
    + apply elem_of_set_add. by left.
    + intros Hwf%reachable_wf. apply NoDup_set_add.
      destruct (rooms st !! key_of roomId) as [room|] eqn:Hroom; cbn.
      * by eapply wf_rooms_NoDup.
      * apply NoDup_nil_2.
    + cbn [from_option].
      destruct (JSON_stringify _ _) as [text|e] eqn:Htext; [|done].
      split; [done|]. by apply joined_text_shape.
Qed.

(** ** Relaying *)

Lemma deliveries_fmap_Send c text (l : list nat) :
  deliveries c ((λ x, Send x text) <$> l) = length (filter (λ x, x = c) l).
Proof.
  unfold deliveries. induction l as [|x l IH]; [done|].
  rewrite fmap_cons, !filter_cons. cbn [sent_to].
  destruct (decide (x = c)); cbn; by rewrite IH.
Qed.

Lemma NoDup_count (c : nat) (l : list nat) :
  NoDup l → length (filter (λ x, x = c) l) = if decide (c ∈ l) then 1 else 0.
Proof.
  induction 1 as [|x l Hx Hl IH]; [done|].
  rewrite filter_cons. destruct (decide (x = c)) as [->|Hne]; cbn.
  - rewrite IH, decide_False by done. rewrite decide_True; [done|by left].
  - rewrite IH. destruct (decide (c ∈ l)) as [Hin|Hin].
    + rewrite decide_True; [done|by right].
    + rewrite decide_False; [done|]. intros [->|?]%elem_of_cons; done.
Qed.

Lemma relayed_deliveries st ws text room c :
  NoDup room →
  deliveries c ((λ c, Send c text) <$> filter (relay_target st ws) room) =
  if decide (c ∈ room ∧ c ≠ ws ∧ readyState st c = Some WebSocket.OPEN)
  then 1 else 0.
Proof.
  intros Hnd.
  rewrite deliveries_fmap_Send, NoDup_count by by apply NoDup_filter.
  apply decide_ext. rewrite list_elem_of_filter. unfold relay_target. tauto.
Qed.

(** The value that a handler has read is not [undefined], so it has a
    text. *)
Lemma read_message_text message data fields s text :
  read_message message = Normal (data, fields) →
  JSON_stringify s data = Normal text → is_Some text.
Proof.
  destruct fields as [[[type roomId] senderId] payload].
  intros Hread Htext. pose proof Hread as (-> & _)%read_message_inv.
  eapply SerializeJSONProperty_Some; [exact Htext|].
  intros ->. discriminate Hread.
Qed.

(** At most the first of a list is counted. *)
Lemma deliveries_first c text (l : list nat) :
  deliveries c ((λ x, Send x text) <$> take 1 l) =
  if decide (head l = Some c) then 1 else 0.
Proof.
  rewrite deliveries_fmap_Send. destruct l as [|x l]; [done|].
  cbn [take head]. rewrite filter_cons.
  destruct (decide (x = c)) as [->|Hne].
  - by rewrite decide_True.
  - rewrite decide_False; [done|]. by intros [= ->].
Qed.

(** C2, amended.  When a signaling frame ([offer], [answer],
    [ice-candidate]) that the handler reads names an existing room, the
    state is not changed and every action is the text of the frame's
    value sent to some connection.  When the value can be serialised and
    the log line of the callback written, the handler completes without
    an exception and a connection gets exactly one copy if it is a member
    of the room other than the sender whose [readyState] is OPEN, and
    none otherwise, so the sender and the members that are not writable
    get nothing.  The log line is written whenever the [roomId] is no
    array and no object, and the value is serialised exactly when its
    arrays and objects are nested no deeper than the runtime goes.  When
    the value cannot be serialised, nobody gets anything; when only the
    log line cannot be written, the first such member of the room gets
    its copy and nobody else does. *)
Theorem relay_reaches_the_others st ws message data type roomId senderId payload room :
  reachable st →
  read_message message = Normal (data, (type, roomId, senderId, payload)) →
  is_signaling type = true →
  rooms_get roomId st = Some room →
  (on_message ws message st).1 = st
  ∧ (∀ text, JSON_stringify Callback data = Normal text →
       is_Some text
       ∧ (∀ a, a ∈ (on_message ws message st).2 → ∃ c, a = Send c text)
       ∧ (log_relayed roomId type = Normal () →
            message_body ws message st
              = (st, (on_message ws message st).2, Normal ())
            ∧ ∀ c, deliveries c (on_message ws message st).2 =
                   if decide (c ∈ room ∧ c ≠ ws
                              ∧ readyState st c = Some WebSocket.OPEN)
                   then 1 else 0)
       ∧ (∀ e, log_relayed roomId type = Throw e →
            ∀ c, deliveries c (on_message ws message st).2 =
                 if decide (head (filter (relay_target st ws) room) = Some c)
                 then 1 else 0))
  ∧ (∀ e, JSON_stringify Callback data = Throw e →
       (on_message ws message st).2 = [])
  ∧ (is_primitive roomId = true → log_relayed roomId type = Normal ())
  ∧ ((∃ text, JSON_stringify Callback data = Normal text) ↔
     nested_within (stringify_depth Callback) data = true).
Proof.
  intros Hwf%reachable_wf Hread Hsig Hroom.
  destruct (on_message_signaling ws message st _ _ _ _ _ Hread Hsig)
    as (_ & _ & Hst).
  split_and!; [done| | | |apply SerializeJSONProperty_Normal].
  - intros text Htext. split_and!.
    + by eapply read_message_text.
    + intros a (text' & _ & c & Htext' & _ & _ & _ & ->)%(on_message_signaling_sent
        _ _ _ _ _ _ _ _ _ Hread Hsig).
      exists c. congruence.
    + intros Hlog.
      destruct (on_message_relayed ws message st _ _ _ _ _ _ Hread Hsig Htext Hlog)
        as [-> ->].
      rewrite Hroom. cbn [from_option]. split; [done|].
      intros c. apply relayed_deliveries. by eapply wf_rooms_NoDup.
    + intros e Hlog c.
      rewrite (on_message_not_logged ws message st _ _ _ _ _ _ _ Hread Hsig Htext Hlog).
      rewrite Hroom. cbn [from_option snd]. apply deliveries_first.
  - intros e Htext.
    by rewrite (on_message_not_serialised ws message st _ _ _ _ _ _ Hread Hsig Htext).
  - intros Hprimitive. by apply log_relayed_primitive.
Qed.

(** C4. A signaling frame whose [roomId] names no room delivers nothing
    and leaves the whole state as it was; when the frame was read without
    throwing, the body of the handler completes normally. *)
Theorem relay_to_unknown_room st ws data :
  is_signaling (get data "type") = true →
  rooms_get (get data "roomId") st = None →
  on_message ws (Json data) st = (st, [])
  ∧ (∀ fields, read_message (Json data) = Normal (data, fields) →
       message_body ws (Json data) st = (st, [], Normal ())).
Proof.
  intros Hsig Hroom.
  assert (∀ fields, read_message (Json data) = Normal (data, fields) →
     message_body ws (Json data) st = (st, [], Normal ())) as Hnormal.
  { intros [[[type roomId] senderId] payload] Hread.
    destruct (read_message_inv _ _ _ _ _ _ Hread) as (_ & -> & -> & _ & _ & Hlog).
    destruct (on_message_read ws _ st _ _ _ _ _ Hread) as [-> _].
    rewrite dispatch_signaling, relay_run by done.
    by rewrite Hroom. }
  split; [|done].
  case_eq (read_message (Json data)); [intros [data' fields] Hread|intros e Hread].
  - assert (data' = data) as ->.
    { destruct fields as [[[type roomId] senderId] payload].
      by destruct (read_message_inv _ _ _ _ _ _ Hread) as ([= ->] & _). }
    unfold on_message, Handler.try_catch. by rewrite (Hnormal _ Hread).
  - by destruct (on_message_throw ws _ st e Hread).
Qed.

(** ** Dropped frames *)

(** C5. A frame that does not parse, and a frame that parses to a value
    whose [type] is absent or is neither [join-room] nor a signaling
    type, is dropped: the handler returns with the state unchanged, so
    the connection stays a client with its [readyState], and with no
    action, so nothing is sent and no connection is terminated. *)
Theorem malformed_frame_dropped st ws message :
  (message = Unparseable
   ∨ ∃ data, message = Json data
       ∧ strict_eq_string (get data "type") "join-room" = false
       ∧ is_signaling (get data "type") = false) →
  on_message ws message st = (st, [])
  ∧ step (Message ws message) st = (st, []).
Proof.
  intros Hdrop.
  assert (on_message ws message st = (st, [])) as Hon; [|done].
  destruct (read_message message) as [[data [[[type roomId] senderId] payload]]|e] eqn:Hread;
    [|by destruct (on_message_throw ws message st e Hread)].
  destruct (read_message_inv _ _ _ _ _ _ Hread) as (-> & -> & _).
  destruct Hdrop as [?|(data' & [= <-] & Hjoin & Hsig)]; [done|].
  destruct (on_message_read ws _ st _ _ _ _ _ Hread) as [_ ->].
  by rewrite dispatch_other.
Qed.

(** ** Rooms are never empty *)

Lemma ws_closed_rooms ws st : rooms (ws_closed ws st) = rooms st.
Proof. done. Qed.

Lemma roomId_alter_readyState rs c ws st :
  roomId (with_sockets (alter (WebSocket.set_readyState rs) c) st) ws = roomId st ws.
Proof.
  unfold roomId. fields. rewrite list_lookup_alter.
  destruct (decide (c = ws)) as [->|]; [|done]. by destruct (sockets st !! ws).
Qed.

Lemma ws_closed_roomId c ws st : roomId (ws_closed c st) ws = roomId st ws.
Proof. apply roomId_alter_readyState. Qed.

Lemma cleaned_room_ws_closed c ws st :
  cleaned_room ws (ws_closed c st) = cleaned_room ws st.
Proof. unfold cleaned_room, rooms_has. by rewrite ws_closed_roomId, ws_closed_rooms. Qed.

Lemma cleaned_room_Some ws st k :
  cleaned_room ws st = Some k ↔
  ToBoolean (roomId st ws) = true ∧ k = key_of (roomId st ws) ∧ is_Some (rooms st !! k).
Proof.
  unfold cleaned_room, rooms_has.
  destruct (ToBoolean (roomId st ws)); cbn [andb].
  - case_bool_decide as Hhas.
    + split; [by intros [= <-]|by intros (_ & -> & _)].
    + split; [done|]. intros (_ & -> & Hk). done.
  - split; [done|by intros [? _]].
Qed.

Lemma step_close_rooms ws st k :
  rooms (step (Close ws) st).1 !! k =
  if decide (cleaned_room ws st = Some k)
  then match set_delete ws (default [] (rooms st !! k)) with
       | [] => None
       | room => Some room
       end
  else rooms st !! k.
Proof.
  cbn [step fst]. by rewrite on_close_rooms, cleaned_room_ws_closed, ws_closed_rooms.
Qed.

Lemma heartbeat_rooms st : rooms (heartbeat st).1 = rooms st.
Proof. apply heartbeat_loop_frame. Qed.

Lemma room_created_by_join ev st k room :
  rooms st !! k = None → rooms (step ev st).1 !! k = Some room →
  ∃ ws data roomId senderId payload,
    ev = Message ws (Json data)
    ∧ read_message (Json data)
        = Normal (data, (VString "join-room", roomId, senderId, payload))
    ∧ key_of roomId = k ∧ room = [ws].
Proof.
  intros Hnone. destruct ev as [|ws message|ws|ws|ws|].
  - cbn. by rewrite Hnone.
  - cbn [step].
    destruct (on_message_cases ws message st)
      as [(data & roomId & senderId & payload & Hread & ->)| ->];
      [|by rewrite Hnone].
    rewrite join_room_rooms.
    destruct (decide (k = key_of roomId)) as [->|]; [|by rewrite Hnone].
    rewrite Hnone. intros [= <-].
    destruct (read_message_inv _ _ _ _ _ _ Hread) as (-> & _).
    by exists ws, data, roomId, senderId, payload.
  - cbn. by rewrite Hnone.
  - rewrite step_close_rooms, Hnone.
    by destruct (decide (cleaned_room ws st = Some k)).
  - cbn [step fst]. unfold on_error. by rewrite Hnone.
  - cbn [step]. by rewrite heartbeat_rooms, Hnone.
Qed.

(** C3. In every reachable state each room of the registry has a member.
    A step gives an identifier a room only when it handles a [join-room]
    frame for that identifier while it has none, and that room then holds
    the joining connection.  When a connection closes and its recorded
    room loses its last member, the room is gone after the same step;
    otherwise the room stays with the remaining members. *)
Theorem no_empty_room st :
  reachable st →
  (∀ k room, rooms st !! k = Some room → room ≠ [])
  ∧ (∀ ev k room,
       rooms st !! k = None → rooms (step ev st).1 !! k = Some room →
       ∃ ws data roomId senderId payload,
         ev = Message ws (Json data)
         ∧ read_message (Json data)
             = Normal (data, (VString "join-room", roomId, senderId, payload))
         ∧ key_of roomId = k ∧ room = [ws])
  ∧ (∀ ws room,
       ToBoolean (roomId st ws) = true →
       rooms_get (roomId st ws) st = Some room →
       rooms_get (roomId st ws) (step (Close ws) st).1 =
         if decide (set_delete ws room = []) then None
         else Some (set_delete ws room)).
Proof.
  intros Hst. split_and!.
  - apply reachable_wf in Hst. apply Hst.
  - intros ev k room. apply room_created_by_join.
  - intros ws room Htruthy Hroom. unfold rooms_get in *.
    rewrite step_close_rooms, decide_True, Hroom.
    + fields. by destruct (set_delete ws room).
    + apply cleaned_room_Some. eauto.
Qed.

(** ** What is relayed, and to which room *)

(** C7, amended.  Every message sent while handling a signaling frame
    is the text that [JSON.stringify] writes for the value parsed from
    that frame, taken as a whole: the server builds no envelope of its
    own from single fields.  The text denotes the parsed value itself,
    every property, [payload] included, whenever the value holds no
    number that JSON cannot write. *)
Theorem relayed_envelope_is_verbatim st ws message data :
  JSON_parse message = Normal data →
  is_signaling (get data "type") = true →
  ∀ a, a ∈ (on_message ws message st).2 →
    ∃ c text,
      a = Send c (Some text)
      ∧ JSON_stringify Callback data = Normal (Some text)
      ∧ (writable data = true → text = json_of data).
Proof.
  intros Hparse Hsig a.
  destruct message as [|data']; [done|]. injection Hparse as ->.
  case_eq (read_message (Json data)).
  - intros [data' [[[type roomId] senderId] payload]] Hread.
    destruct (read_message_inv _ _ _ _ _ _ Hread) as ([= <-] & -> & _).
    intros (text & _ & c & Htext & _ & _ & _ & ->)%(on_message_signaling_sent
      _ _ _ _ _ _ _ _ _ Hread Hsig).
    destruct (read_message_text _ _ _ _ _ Hread Htext) as [j ->].
    exists c, j. split_and!; [done..|].
    intros Hw. apply (SerializeJSONProperty_writable _ _ _ Htext) in Hw.
    by injection Hw.
  - intros e Hread. destruct (on_message_throw ws _ st e Hread) as [_ ->].
    by intros ?%not_elem_of_nil.
Qed.

Lemma readyState_set_room recorded sid ws st c :
  readyState (with_sockets (alter (WebSocket.set_room recorded sid) ws) st) c
  = readyState st c.
Proof.
  unfold readyState. fields. rewrite list_lookup_alter.
  destruct (decide (ws = c)) as [->|]; [|done]. by destruct (sockets st !! c).
Qed.

(** C6, amended.  The room of a signaling frame is the one named by the
    [roomId] of the frame itself: when the value of the frame can be
    serialised and the log line of the callback written, a connection
    receives the text exactly when it is a member of that room other
    than the sender and its [readyState] is OPEN; and whatever is sent
    goes to such a member of that room.  What is recorded on the sending
    connection plays no part: recording any other room on it leaves the
    messages sent unchanged. *)
Theorem relay_follows_envelope_roomId st ws message data type roomId senderId payload :
  read_message message = Normal (data, (type, roomId, senderId, payload)) →
  is_signaling type = true →
  roomId = get data "roomId"
  ∧ (∀ text, JSON_stringify Callback data = Normal text →
     log_relayed roomId type = Normal () →
     ∀ c, Send c text ∈ (on_message ws message st).2 ↔
          ∃ room, rooms_get (get data "roomId") st = Some room
                  ∧ c ∈ room ∧ c ≠ ws ∧ readyState st c = Some WebSocket.OPEN)
  ∧ (∀ a, a ∈ (on_message ws message st).2 →
       ∃ c text room,
         a = Send c text
         ∧ rooms_get (get data "roomId") st = Some room
         ∧ c ∈ room ∧ c ≠ ws ∧ readyState st c = Some WebSocket.OPEN)
  ∧ (∀ recorded sid,
       (on_message ws message
          (with_sockets (alter (WebSocket.set_room recorded sid) ws) st)).2
       = (on_message ws message st).2).
Proof.
  intros Hread Hsig.
  destruct (read_message_inv _ _ _ _ _ _ Hread) as (_ & _ & Hroom & _).
  split_and!; [done| | |].
  - intros text Htext Hlog c.
    rewrite (proj2 (on_message_relayed _ _ _ _ _ _ _ _ _ Hread Hsig Htext Hlog)).
    subst roomId.
    destruct (rooms_get (get data "roomId") st) as [room|]; cbn [from_option].
    + rewrite list_elem_of_fmap. split.
      * intros (c' & Heq & Hfil). injection Heq as <-.
        apply list_elem_of_filter in Hfil as [[Hne Hopen] Hin]. by exists room.
      * intros (room' & [= <-] & Hin & Hne & Hopen). exists c. split; [done|].
        apply list_elem_of_filter. by unfold relay_target.
    + split; [by intros ?%not_elem_of_nil|by intros (? & ? & _)].
  - intros a (text & room & c & _ & Hget & Hin & [Hne Hopen] & ->)%(
      on_message_signaling_sent _ _ _ _ _ _ _ _ _ Hread Hsig).
    subst roomId. by exists c, text, room.
  - intros recorded sid.
    destruct (on_message_signaling ws message st _ _ _ _ _ Hread Hsig)
      as (_ & -> & _).
    destruct (on_message_signaling ws message
                (with_sockets (alter (WebSocket.set_room recorded sid) ws) st)
                _ _ _ _ _ Hread Hsig) as (_ & -> & _).
    rewrite !relay_run. unfold rooms_get. fields.
    destruct (rooms st !! key_of roomId) as [room|]; [|done].
    assert (filter (relay_target
                      (with_sockets (alter (WebSocket.set_room recorded sid) ws) st)
                      ws) room
            = filter (relay_target st ws) room) as ->.
    { apply list_filter_iff. intros client. unfold relay_target.
      by rewrite readyState_set_room. }
    destruct (filter _ room) as [|c targets]; [done|].
    destruct (JSON_stringify Callback data) as [text|e]; [|done].
    by destruct (log_relayed roomId type) as [[]|e].
Qed.
(** ** The liveness flag *)

Lemma isAlive_alter f ws st c :
  isAlive (with_sockets (alter f ws) st) c =
  match sockets st !! c with
  | Some s => WebSocket.isAlive (if decide (ws = c) then f s else s)
  | None => false
  end.
Proof.
  unfold isAlive. fields. rewrite list_lookup_alter.
  destruct (decide (ws = c)) as [->|]; by destruct (sockets st !! c).
Qed.

Lemma isAlive_alter_same f ws st c :
  (∀ s, WebSocket.isAlive (f s) = WebSocket.isAlive s) →
  isAlive (with_sockets (alter f ws) st) c = isAlive st c.
Proof.
  intros Hf. rewrite isAlive_alter. unfold isAlive.
  destruct (sockets st !! c); [|done]. by destruct (decide (ws = c)).
Qed.

Lemma isAlive_lt st ws : isAlive st ws = true → ws < length (sockets st).
Proof.
  unfold isAlive. destruct (sockets st !! ws) eqn:Hs; [|done].
  intros _. by eapply lookup_lt_Some.
Qed.

Lemma isAlive_on_message ws message st c :
  isAlive (on_message ws message st).1 c = isAlive st c.
Proof.
  destruct (on_message_cases ws message st)
    as [(data & roomId & senderId & payload & _ & ->)| ->]; [|done].
  unfold isAlive. rewrite join_room_sockets.
  by apply (isAlive_alter_same _ ws st c).
Qed.

Lemma isAlive_on_pong ws st c :
  isAlive (on_pong ws st) c =
  if decide (c = ws ∧ ws < length (sockets st)) then true else isAlive st c.
Proof.
  unfold on_pong. rewrite isAlive_alter. unfold isAlive.
  destruct (sockets st !! c) as [s|] eqn:Hs.
  - apply lookup_lt_Some in Hs as Hlt.
    destruct (decide (ws = c)) as [->|Hne].
    + by rewrite decide_True.
    + rewrite decide_False; [done|]. by intros [-> _].
  - apply lookup_ge_None in Hs. rewrite decide_False; [done|].
    intros [-> ?]. lia.
Qed.



(** C9, amended.  The flag of a connection is set when the connection is
    accepted and whenever a pong arrives on it; handling a received frame
    leaves the flag of every connection as it was. *)
Theorem liveness_set_by_pong_only st ws :
  reachable st → ws ∈ clients st →
  isAlive (step (Pong ws) st).1 ws = true
  ∧ isAlive (step Connection st).1 (length (sockets st)) = true
  ∧ (∀ message c, isAlive (step (Message ws message) st).1 c = isAlive st c).
Proof.
  intros Hwf%reachable_wf Hws. split_and!.
  - cbn [step fst]. rewrite isAlive_on_pong, decide_True; [done|].
    split; [done|]. by apply Hwf.
  - cbn [step fst]. unfold on_connection, isAlive. fields.
    by rewrite lookup_app_r, Nat.sub_diag.
  - intros message c. apply isAlive_on_message.
Qed.

(** ** The heartbeat *)

Lemma heartbeat_visit_isAlive ws st c :
  isAlive (heartbeat_visit ws st).1 c =
  if decide (c = ws) then false else isAlive st c.
Proof.
  unfold heartbeat_visit. destruct (isAlive st ws) eqn:Halive; cbn [negb fst].
  - rewrite isAlive_alter. unfold isAlive.
    destruct (sockets st !! c) as [s|]; [|by destruct (decide (c = ws))].
    destruct (decide (c = ws)) as [->|Hne].
    + by rewrite decide_True.
    + by rewrite decide_False.
  - unfold ws_terminate. rewrite isAlive_alter_same.
    + destruct (decide (c = ws)) as [->|]; done.
    + intros s. by destruct (WebSocket.readyState s).
Qed.

Lemma heartbeat_visit_action ws st :
  (heartbeat_visit ws st).2 = if isAlive st ws then Ping ws else Terminate ws.
Proof. unfold heartbeat_visit. by destruct (isAlive st ws). Qed.


Lemma heartbeat_loop_isAlive todo st c :
  isAlive (heartbeat_loop todo st).1 c =
  if decide (c ∈ todo) then false else isAlive st c.
Proof.
  revert st. induction todo as [|ws rest IH]; intros st.
  - cbn. rewrite decide_False; [done|apply not_elem_of_nil].
  - cbn [heartbeat_loop].
    pose proof (heartbeat_visit_isAlive ws st c) as Hvisit.
    destruct (heartbeat_visit ws st) as [st1 a]. cbn [fst] in *.
    specialize (IH st1).
    destruct (heartbeat_loop rest st1) as [st2 out]. cbn [fst] in *.
    rewrite IH, Hvisit.
    destruct (decide (c = ws)) as [->|Hne].
    + rewrite (decide_True (P := ws ∈ ws :: rest)) by by left.
      by destruct (decide (ws ∈ rest)).
    + destruct (decide (c ∈ rest)) as [Hin|Hin].
      * rewrite decide_True; [done|by right].
      * rewrite decide_False; [done|]. by intros [?|?]%elem_of_cons.
Qed.



Lemma close_leaves_clients ws st : ws ∉ clients (step (Close ws) st).1.
Proof.
  cbn [step fst]. rewrite on_close_clients. unfold ws_closed. fields.
  by intros [? _]%elem_of_set_delete.
Qed.

Lemma close_leaves_recorded_room ws st room :
  ToBoolean (roomId st ws) = true →
  rooms_get (roomId st ws) (step (Close ws) st).1 = Some room → ws ∉ room.
Proof.
  intros Htruthy. unfold rooms_get. rewrite step_close_rooms.
  destruct (decide (cleaned_room ws st = Some (key_of (roomId st ws))))
    as [_|Hno].
  - destruct (set_delete ws _) as [|c room'] eqn:Hdel; [done|].
    intros [= <-]. rewrite <-Hdel. by intros [? _]%elem_of_set_delete.
  - intros Hroom. destruct Hno. apply cleaned_room_Some. eauto.
Qed.

(** What a frame makes the server send: an acknowledgment to its sender,
    or a text to members of a room whose connection is OPEN. *)
Lemma on_message_targets c message st c' p :
  Send c' p ∈ (on_message c message st).2 →
  c' = c ∨ (readyState st c' = Some WebSocket.OPEN ∧ ∃ r, is_member st r c').
Proof.
  destruct (read_message message)
    as [[data [[[type roomId] senderId] payload]]|e] eqn:Hread.
  - destruct (strict_eq_string type "join-room") eqn:Hjoin.
    + apply strict_eq_string_spec in Hjoin as ->.
      destruct (on_message_join c message st _ _ _ _ Hread) as (_ & _ & ->).
      destruct (JSON_stringify _ _); [|by intros ?%not_elem_of_nil].
      intros [= -> _]%list_elem_of_singleton. by left.
    + destruct (is_signaling type) eqn:Hsig.
      * intros (text & room & x & _ & Hroom & Hin & [_ Hopen] & [= -> _])%(
          on_message_signaling_sent _ _ _ _ _ _ _ _ _ Hread Hsig).
        right. split; [done|]. by exists roomId, room.
      * destruct (on_message_read c message st _ _ _ _ _ Hread) as [_ ->].
        rewrite dispatch_other by done. by intros ?%not_elem_of_nil.
  - destruct (on_message_throw c message st e Hread) as [_ ->].
    by intros ?%not_elem_of_nil.
Qed.





(** ** Joining a second room *)

Lemma exec_app evs1 evs2 st :
  exec (evs1 ++ evs2) st =
  '(st1, out1) ← exec evs1 st;
  '(st2, out2) ← exec evs2 st1;
  Some (st2, out1 ++ out2).
Proof.
  revert st. induction evs1 as [|ev rest IH]; intros st; cbn [app exec].
  - cbn. destruct (exec evs2 st) as [[st2 out2]|]; done.
  - destruct (decide (enabled ev st)); [|done].
    destruct (step ev st) as [st1 out1]. rewrite IH.
    destruct (exec rest st1) as [[st1' out1']|]; [|done]. cbn.
    destruct (exec evs2 st1') as [[st2 out2]|]; [|done]. cbn.
    by rewrite app_assoc.
Qed.

Lemma is_member_step ev st A ws :
  is_member st A ws →
  (ev = Close ws → cleaned_room ws st ≠ Some (key_of A)) →
  is_member (step ev st).1 A ws.
Proof.
  intros (room & Hroom & Hin) Hclose. unfold is_member, rooms_get in *.
  destruct ev as [|c message|c|c|c|].
  - by exists room.
  - cbn [step].
    destruct (on_message_cases c message st)
      as [(data & roomId & senderId & payload & _ & ->)| ->];
      [|by exists room].
    rewrite join_room_rooms.
    destruct (decide (key_of A = key_of roomId)) as [Heq|]; [|by exists room].
    eexists. split; [done|]. rewrite <-Heq, Hroom. cbn.
    apply elem_of_set_add. by right.
  - by exists room.
  - rewrite step_close_rooms, Hroom. fields.
    destruct (decide (cleaned_room c st = Some (key_of A))) as [Hc|];
      [|by exists room].
    assert (ws ∈ set_delete c room) as Hin'.
    { apply elem_of_set_delete. split; [|done]. intros ->. by apply Hclose. }
    destruct (set_delete c room); [by apply not_elem_of_nil in Hin'|].
    by eexists.
  - by exists room.
  - cbn [step]. rewrite heartbeat_rooms. by exists room.
Qed.

(** While the connection stays a client, it stays a member of a room it
    joined. *)
Lemma member_while_client evs st st' out A ws :
  exec evs st = Some (st', out) →
  ws < length (sockets st) → (ws ∈ clients st → is_member st A ws) →
  ws < length (sockets st') ∧ (ws ∈ clients st' → is_member st' A ws).
Proof.
  revert st st' out. induction evs as [|ev rest IH]; intros st st' out; cbn [exec].
  - by intros [= <- _].
  - destruct (decide (enabled ev st)) as [Hen|]; [|done].
    intros Hexec Hlt Hmem.
    pose proof (step_length ev st) as Hlen.
    pose proof (step_clients ev st ws Hlt) as Hcl.
    pose proof (λ H, is_member_step ev st A ws H) as Hstep.
    destruct (step ev st) as [st1 out1]. cbn [fst] in *.
    destruct (exec rest st1) as [[st2 out2]|] eqn:Hexec1; [|done].
    cbn in Hexec. injection Hexec as <- _.
    eapply IH; [done|lia|].
    intros [Hin Hne]%Hcl. apply Hstep; [by apply Hmem|done].
Qed.

(** Once the connection has closed, it stays in every room it was left
    in, and such a room is never deleted. *)
Lemma member_after_close evs st st' out A ws :
  exec evs st = Some (st', out) →
  ws < length (sockets st) → ws ∉ clients st → is_member st A ws →
  (ws ∉ clients st') ∧ is_member st' A ws.
Proof.
  revert st st' out. induction evs as [|ev rest IH]; intros st st' out; cbn [exec].
  - by intros [= <- _].
  - destruct (decide (enabled ev st)) as [Hen|]; [|done].
    intros Hexec Hlt Hout Hmem.
    pose proof (step_length ev st) as Hlen.
    pose proof (step_clients ev st ws Hlt) as Hcl.
    pose proof (is_member_step ev st A ws Hmem) as Hstep.
    destruct (step ev st) as [st1 out1]. cbn [fst] in *.
    destruct (exec rest st1) as [[st2 out2]|] eqn:Hexec1; [|done].
    cbn in Hexec. injection Hexec as <- _.
    eapply IH; [done|lia|naive_solver|].
    apply Hstep. intros ->. by destruct Hout.
Qed.

Lemma join_room_roomId ws rid senderId st :
  ws < length (sockets st) →
  roomId (join_room_writes ws rid senderId st) ws = rid.
Proof.
  intros Hlt. unfold roomId.
  destruct (lookup_lt_is_Some_2 _ _ Hlt) as [s Hs].
  by rewrite join_room_sockets, list_lookup_alter_eq, Hs.
Qed.

(** X15. A connection joins room [A] and later, while still connected,
    a different room [B].  Then it is a member of both rooms, only [B] is
    recorded on it, and a signaling frame that another connection
    addresses to [A] is still delivered to it, when the frame can be
    serialised and the log line of the callback written, and while its
    [readyState] is OPEN.  When it closes, no room other than [B] is
    touched, and it leaves [B] when [B] is truthy.  From then on,
    whatever happens, it stays a member of [A], so [A] is never
    deleted. *)
Theorem second_join_leaves_stale_member
    st ws dataA dataB A B sidA sidB pA pB evs st1 out1 :
  reachable st →
  read_message (Json dataA) = Normal (dataA, (VString "join-room", A, sidA, pA)) →
  read_message (Json dataB) = Normal (dataB, (VString "join-room", B, sidB, pB)) →
  key_of A ≠ key_of B →
  exec (Message ws (Json dataA) :: evs ++ [Message ws (Json dataB)]) st
    = Some (st1, out1) →
  is_member st1 A ws ∧ is_member st1 B ws ∧ roomId st1 ws = B
  ∧ (∀ c data type A' sid p text,
       c ≠ ws → readyState st1 ws = Some WebSocket.OPEN →
       read_message (Json data) = Normal (data, (type, A', sid, p)) →
       is_signaling type = true → key_of A' = key_of A →
       JSON_stringify Callback data = Normal text →
       log_relayed A' type = Normal () →
       deliveries ws (on_message c (Json data) st1).2 = 1)
  ∧ (∀ k, k ≠ key_of B → rooms (step (Close ws) st1).1 !! k = rooms st1 !! k)
  ∧ (ToBoolean B = true → ¬ is_member (step (Close ws) st1).1 B ws)
  ∧ (∀ evs2 st2 out2,
       exec (Close ws :: evs2) st1 = Some (st2, out2) →
       is_member st2 A ws ∧ ws ∉ clients st2).
Proof.
  intros Hst HreadA HreadB Hdiff Hexec.
  assert (reachable st1) as Hst1 by by eapply reachable_exec.
  apply reachable_wf in Hst as Hwf. apply reachable_wf in Hst1 as Hwf1.
  cbn [exec] in Hexec.
  destruct (decide (enabled (Message ws (Json dataA)) st)) as [Hws|]; [|done].
  cbn [step enabled] in Hexec, Hws.
  destruct (on_message_join ws _ st _ _ _ _ HreadA) as (_ & HstA & _).
  pose proof (join_room_rooms ws A sidA st (key_of A)) as HroomA.
  pose proof (join_room_sockets ws A sidA st) as HsockA.
  rewrite <-HstA in HroomA, HsockA.
  destruct (on_message ws (Json dataA) st) as [sta outa]. cbn [fst] in *.
  clear HstA.
  rewrite exec_app in Hexec.
  destruct (exec evs sta) as [[stb outb]|] eqn:Hevs; [|done].
  cbn [mbind option_bind] in Hexec.
  cbn [exec] in Hexec.
  destruct (decide (enabled (Message ws (Json dataB)) stb)) as [Hwsb|]; [|done].
  cbn [step enabled] in Hexec, Hwsb.
  destruct (on_message_join ws _ stb _ _ _ _ HreadB) as (_ & HstB & _).
  pose proof (join_room_rooms ws B sidB stb) as HroomB.
  pose proof (join_room_roomId ws B sidB stb) as HidB.
  pose proof (join_room_clients ws B sidB stb) as HclB.
  pose proof (join_room_sockets ws B sidB stb) as HsockB.
  rewrite <-HstB in HroomB, HidB, HclB, HsockB.
  destruct (on_message ws (Json dataB) stb) as [stc outc]. cbn [fst] in *.
  clear HstB.
  cbn in Hexec. injection Hexec as -> _.
  assert (ws < length (sockets sta)) as Hlta.
  { rewrite HsockA, length_alter. by apply Hwf. }
  assert (is_member sta A ws) as Hmema.
  { rewrite decide_True in HroomA by done. eexists. split; [exact HroomA|].
    apply elem_of_set_add. by left. }
  destruct (member_while_client evs sta stb outb A ws Hevs Hlta (λ _, Hmema))
    as [Hltb Hmemb].
  specialize (Hmemb Hwsb). specialize (HidB Hltb).
  assert (is_member st1 A ws) as Hmem1.
  { destruct Hmemb as (room & Hroom & Hin). exists room. split; [|done].
    unfold rooms_get in *. by rewrite HroomB, decide_False. }
  assert (∀ k, cleaned_room ws st1 = Some k → k = key_of B) as Hcleaned.
  { intros k (_ & -> & _)%cleaned_room_Some. by rewrite HidB. }
  split_and!.
  - done.
  - eexists. unfold rooms_get. rewrite HroomB, decide_True by done.
    split; [done|]. apply elem_of_set_add. by left.
  - done.
  - intros c data type A' sid p text Hc Hopen Hread Hsig HA' Htext Hlog.
    destruct Hmem1 as (room & Hroom & Hin).
    rewrite (proj2 (on_message_relayed _ _ _ _ _ _ _ _ _ Hread Hsig Htext Hlog)).
    unfold rooms_get in *. rewrite HA', Hroom. cbn [from_option].
    rewrite relayed_deliveries by by eapply wf_rooms_NoDup.
    by rewrite decide_True.
  - intros k Hk. rewrite step_close_rooms, decide_False; [done|].
    by intros ->%Hcleaned.
  - intros Htruthy (room & Hroom & Hin).
    rewrite <-HidB in Htruthy, Hroom.
    by eapply close_leaves_recorded_room.
  - intros evs2 st2 out2. cbn [exec].
    destruct (decide (enabled (Close ws) st1)) as [Hen|]; [|done].
    pose proof (is_member_step (Close ws) st1 A ws Hmem1) as Hstep.
    pose proof (close_leaves_clients ws st1) as Hgone.
    pose proof (step_length (Close ws) st1) as Hlen.
    destruct (step (Close ws) st1) as [st' out']. cbn [fst] in *.
    destruct (exec evs2 st') as [[st2' out2']|] eqn:Hevs2; [|done].
    cbn. intros [= <- _].
    destruct (member_after_close evs2 st' st2' out2' A ws Hevs2); try done.
    + assert (ws < length (sockets st1)); [|lia].
      rewrite HsockB, length_alter. done.
    + apply Hstep. by intros _ Heq%Hcleaned.
Qed.

(** * Further properties of the server *)

(** ** The room count of the status endpoint *)

Lemma join_room_rooms_insert ws roomId senderId st :
  rooms (join_room_writes ws roomId senderId st) =
  <[key_of roomId := set_add ws (default [] (rooms st !! key_of roomId))]> (rooms st).
Proof.
  apply map_eq. intros k. rewrite join_room_rooms, lookup_insert.
  destruct (decide (k = key_of roomId)) as [->|Hne].
  - by rewrite decide_True.
  - by rewrite decide_False.
Qed.

Lemma step_close_rooms_eq ws st :
  rooms (step (Close ws) st).1 =
  match cleaned_room ws st with
  | Some k =>
      match set_delete ws (default [] (rooms st !! k)) with
      | [] => delete k (rooms st)
      | room => <[k := room]> (rooms st)
      end
  | None => rooms st
  end.
Proof.
  apply map_eq. intros k. rewrite step_close_rooms.
  destruct (cleaned_room ws st) as [k'|]; [|by rewrite decide_False].
  destruct (decide (Some k' = Some k)) as [[= ->]|Hne].
  - destruct (set_delete ws _).
    + by rewrite lookup_delete_eq.
    + by rewrite lookup_insert_eq.
  - assert (k' ≠ k) by congruence.
    destruct (set_delete ws _).
    + by rewrite lookup_delete_ne.
    + by rewrite lookup_insert_ne.
Qed.

(** X1. The number of rooms that [/health] reports changes only in two
    ways: handling a [join-room] frame for an identifier without a room
    adds one, and the close of a connection whose recorded room loses its
    last member takes one away.  Every other event, a [join-room] for an
    existing room and a close that leaves members behind included, keeps
    the count. *)
Theorem health_room_count ev st :
  Health.rooms (health (step ev st).1) =
  match ev with
  | Message ws message =>
      match read_message message with
      | Normal (_, (type, roomId, _, _)) =>
          if strict_eq_string type "join-room" && negb (rooms_has roomId st)
          then S (Health.rooms (health st))
          else Health.rooms (health st)
      | Throw _ => Health.rooms (health st)
      end
  | Close ws =>
      match cleaned_room ws st with
      | Some k =>
          if decide (set_delete ws (default [] (rooms st !! k)) = [])
          then Health.rooms (health st) - 1
          else Health.rooms (health st)
      | None => Health.rooms (health st)
      end
  | Connection | Pong _ | Error _ | Tick => Health.rooms (health st)
  end.
Proof.
  unfold health. cbn [Health.rooms].
  destruct ev as [|ws message|ws|ws|ws|]; try done.
  - cbn [step]. rewrite on_message_state.
    destruct (read_message message)
      as [[data [[[type roomId] senderId] payload]]|e] eqn:Hread; [|done].
    destruct (strict_eq_string type "join-room") eqn:Hjoin; cbn [andb]; [|done].
    rewrite join_room_rooms_insert.
    destruct (rooms st !! key_of roomId) as [room|] eqn:Hroom.
    + rewrite (rooms_has_Some _ _ _ Hroom). cbn [negb].
      by rewrite map_size_insert_Some by eauto.
    + rewrite (rooms_has_None _ _ Hroom). cbn [negb].
      by rewrite map_size_insert_None.
  - rewrite step_close_rooms_eq.
    destruct (cleaned_room ws st) as [k|] eqn:Hclean; [|done].
    apply cleaned_room_Some in Hclean as (_ & _ & [room Hroom]).
    rewrite Hroom. fields.
    destruct (set_delete ws room) as [|c room'] eqn:Hdel.
    + rewrite decide_True, map_size_delete_Some by eauto. lia.
    + rewrite decide_False, map_size_insert_Some by eauto. done.
  - cbn [step]. by rewrite heartbeat_rooms.
Qed.

(** ** Which frames are read *)

(** X2. The handler reads a parsed frame, and goes on to dispatch it,
    exactly when the value is not [null] and the log line can be built,
    that is when none of [roomId], [type] and [senderId || 'unknown'] is
    an object that owns a property named [toString], an array nested
    deeper than the runtime converts, or an array that holds such a
    value.  Every other frame is dropped with the state unchanged and
    nothing sent, a [join-room] frame included. *)
Theorem frame_is_read_iff st ws data :
  ((∃ fields, read_message (Json data) = Normal (data, fields)) ↔
   data ≠ VUndefined ∧ data ≠ VNull
   ∧ ¬ unprintable (toString_depth Body) (get data "roomId")
   ∧ ¬ unprintable (toString_depth Body) (get data "type")
   ∧ ¬ unprintable (toString_depth Body)
         (or_else (get data "senderId") (VString "unknown")))
  ∧ ((∀ fields, read_message (Json data) ≠ Normal (data, fields)) →
     on_message ws (Json data) st = (st, [])).
Proof.
  split.
  - rewrite <-!ToString_Normal. split.
    + intros [[[[type roomId] senderId] payload] Hread].
      destruct (read_message_inv _ _ _ _ _ _ Hread)
        as (_ & -> & -> & -> & _ & Hlog%log_received_Normal).
      split_and!; try apply Hlog; intros ->; done.
    + intros (Hundef & Hnull & Hroom & Htype & Hsender).
      assert (log_received (get data "roomId") (get data "type")
                (get data "senderId") = Normal ()) as Hlog
        by by apply log_received_Normal.
      eexists. unfold read_message. cbn [JSON_parse mbind completion_bind JS.bind].
      destruct data; try done.
      all: cbn [destructure mbind completion_bind JS.bind]; by rewrite Hlog.
  - intros Hnot.
    case_eq (read_message (Json data)).
    + intros [data' [[[type roomId] senderId] payload]] Hread.
      destruct (read_message_inv _ _ _ _ _ _ Hread) as ([= <-] & _).
      by destruct (Hnot _ Hread).
    + intros e Hread. by destruct (on_message_throw ws _ st e Hread).
Qed.

(** ** Joining again, and joining then leaving *)

Lemma server_eq (a b : server) :
  sockets a = sockets b → clients a = clients b → rooms a = rooms b → a = b.
Proof. destruct a, b. cbn. by intros -> -> ->. Qed.

Lemma join_room_writes_idempotent ws roomId senderId st :
  join_room_writes ws roomId senderId (join_room_writes ws roomId senderId st)
  = join_room_writes ws roomId senderId st.
Proof.
  pose proof (join_room_rooms_insert ws roomId senderId st) as Hrooms.
  pose proof (join_room_sockets ws roomId senderId st) as Hsockets.
  pose proof (join_room_clients ws roomId senderId st) as Hclients.
  set (st1 := join_room_writes ws roomId senderId st) in *.
  assert (rooms st1 !! key_of roomId
          = Some (set_add ws (default [] (rooms st !! key_of roomId)))) as Hk
    by by rewrite Hrooms, lookup_insert_eq.
  assert (set_add ws (set_add ws (default [] (rooms st !! key_of roomId)))
          = set_add ws (default [] (rooms st !! key_of roomId))) as Hidem.
  { apply set_add_elem, elem_of_set_add. by left. }
  apply server_eq.
  - rewrite join_room_sockets, Hsockets, list_alter_alter_eq.
    by apply list_alter_ext.
  - by rewrite join_room_clients.
  - rewrite join_room_rooms_insert, Hk. cbn [default from_option id].
    by rewrite Hidem, Hrooms, insert_insert_eq.
Qed.

(** X3. Joining is idempotent for an identifier that is a primitive:
    when a connection sends a [join-room] frame again, with the same
    [roomId] and [senderId], the second handling leaves the state exactly
    as the first one made it and acknowledges with the same text.  Two
    frames never share an array or an object, which is made anew each
    time a frame is parsed. *)
Theorem rejoin_is_idempotent
    st ws message1 message2 data1 data2 roomId senderId payload1 payload2 :
  read_message message1
    = Normal (data1, (VString "join-room", roomId, senderId, payload1)) →
  read_message message2
    = Normal (data2, (VString "join-room", roomId, senderId, payload2)) →
  is_primitive roomId = true → is_primitive senderId = true →
  on_message ws message2 (on_message ws message1 st).1
  = on_message ws message1 st.
Proof.
  intros Hread1 Hread2 _ _.
  destruct (on_message_join ws message1 st _ _ _ _ Hread1) as (_ & Hst1 & Hout1).
  rewrite Hst1.
  destruct (on_message_join ws message2 (join_room_writes ws roomId senderId st)
              _ _ _ _ Hread2) as (_ & Hst2 & Hout2).
  rewrite join_room_writes_idempotent in Hst2, Hout2.
  apply injective_projections; congruence.
Qed.

Lemma set_delete_not_elem (x : nat) (s : list nat) : x ∉ s → set_delete x s = s.
Proof.
  unfold set_delete. induction s as [|y s IH]; [done|].
  intros [Hne Hs]%not_elem_of_cons.
  rewrite filter_cons, decide_True by done. by rewrite IH.
Qed.

Lemma set_delete_set_add (x : nat) (s : list nat) :
  x ∉ s → set_delete x (set_add x s) = s.
Proof.
  intros Hx. rewrite set_add_fresh by done. unfold set_delete.
  rewrite filter_app, filter_cons, decide_False, filter_nil, app_nil_r by naive_solver.
  by apply set_delete_not_elem.
Qed.

(** X4. Joining and then disconnecting is a round trip on the registry:
    when a connection that is not yet a member joins a room with a truthy
    identifier and then closes, the rooms are exactly what they were
    before the join; a room created by the join is deleted again. *)
Theorem join_then_close_restores_rooms st ws message data roomId senderId payload :
  reachable st → ws ∈ clients st →
  read_message message
    = Normal (data, (VString "join-room", roomId, senderId, payload)) →
  ToBoolean roomId = true → ¬ is_member st roomId ws →
  rooms (step (Close ws) (step (Message ws message) st).1).1 = rooms st.
Proof.
  intros Hwf%reachable_wf Hws Hread Htruthy Hnot.
  cbn [step].
  destruct (on_message_join ws message st _ _ _ _ Hread) as (_ & Hst1 & _).
  pose proof (join_room_rooms_insert ws roomId senderId st) as Hrooms.
  pose proof (join_room_roomId ws roomId senderId st) as Hid.
  rewrite <-Hst1 in Hrooms, Hid.
  destruct (on_message ws message st) as [st1 out1]. cbn [fst] in *. clear Hst1.
  specialize (Hid (wf_clients_lt _ Hwf _ Hws)).
  assert (ws ∉ default [] (rooms st !! key_of roomId)) as Hfresh.
  { destruct (rooms st !! key_of roomId) as [old|] eqn:Hold; cbn.
    - intros Hin. apply Hnot. by exists old.
    - apply not_elem_of_nil. }
  assert (cleaned_room ws st1 = Some (key_of roomId)) as Hclean.
  { apply cleaned_room_Some. rewrite Hid, Hrooms, lookup_insert_eq. eauto. }
  change (on_close ws (ws_closed ws st1)) with (step (Close ws) st1).1.
  rewrite step_close_rooms_eq, Hclean, Hrooms, lookup_insert_eq.
  cbn [default from_option id]. rewrite set_delete_set_add by done.
  destruct (rooms st !! key_of roomId) as [old|] eqn:Hold; cbn [default from_option id].
  - pose proof (wf_rooms_nonempty _ Hwf _ _ Hold).
    destruct old as [|c old]; [done|].
    by rewrite insert_insert_eq, insert_id.
  - by rewrite delete_insert_eq, delete_id.
Qed.

(** ** Who is sent a message *)

Lemma readyState_alter f c st ws :
  (∀ s, WebSocket.readyState (f s) = WebSocket.readyState s) →
  readyState (with_sockets (alter f c) st) ws = readyState st ws.
Proof.
  intros Hf. unfold readyState. fields. rewrite list_lookup_alter.
  destruct (decide (c = ws)) as [->|]; [|done].
  destruct (sockets st !! ws); cbn; by rewrite ?Hf.
Qed.

Lemma roomId_alter f c st ws :
  (∀ s, WebSocket.roomId (f s) = WebSocket.roomId s) →
  roomId (with_sockets (alter f c) st) ws = roomId st ws.
Proof.
  intros Hf. unfold roomId. fields. rewrite list_lookup_alter.
  destruct (decide (c = ws)) as [->|]; [|done].
  destruct (sockets st !! ws); cbn; by rewrite ?Hf.
Qed.

Lemma readyState_on_message c message st ws :
  readyState (on_message c message st).1 ws = readyState st ws.
Proof.
  destruct (on_message_cases c message st)
    as [(data & roomId & senderId & payload & _ & ->)| ->]; [|done].
  unfold readyState. rewrite join_room_sockets.
  by apply (readyState_alter _ c st ws).
Qed.

Lemma heartbeat_loop_no_send todo st c p : Send c p ∉ (heartbeat_loop todo st).2.
Proof.
  revert st. induction todo as [|ws rest IH]; intros st; cbn [heartbeat_loop].
  - apply not_elem_of_nil.
  - pose proof (heartbeat_visit_action ws st) as Hact.
    destruct (heartbeat_visit ws st) as [st1 a]. cbn [snd] in Hact.
    specialize (IH st1). destruct (heartbeat_loop rest st1) as [st2 out].
    cbn [snd] in *. intros [Heq|?]%elem_of_cons; [|done].
    rewrite Hact in Heq. by destruct (isAlive st ws).
Qed.

Lemma heartbeat_loop_closed todo st ws :
  readyState st ws = Some WebSocket.CLOSED →
  readyState (heartbeat_loop todo st).1 ws = Some WebSocket.CLOSED.
Proof.
  revert st. induction todo as [|c rest IH]; intros st Hclosed; [done|].
  cbn [heartbeat_loop].
  assert (readyState (heartbeat_visit c st).1 ws = Some WebSocket.CLOSED) as Hvisit.
  { unfold heartbeat_visit. destruct (negb (isAlive st c)); cbn [fst].
    - unfold ws_terminate, readyState in *. fields. rewrite list_lookup_alter.
      destruct (decide (c = ws)) as [->|]; [|done].
      destruct (sockets st !! ws) as [s|]; [|done]. cbn in *.
      injection Hclosed as Hclosed. rewrite Hclosed. by rewrite Hclosed.
    - by rewrite readyState_alter. }
  destruct (heartbeat_visit c st) as [st1 a]. cbn [fst] in *.
  specialize (IH st1 Hvisit). by destruct (heartbeat_loop rest st1).
Qed.

(** A closed connection stays closed, stays out of the clients, and is
    sent nothing. *)
Lemma closed_step ev st ws :
  enabled ev st →
  ws ∉ clients st → readyState st ws = Some WebSocket.CLOSED →
  (ws ∉ clients (step ev st).1)
  ∧ readyState (step ev st).1 ws = Some WebSocket.CLOSED
  ∧ ∀ p, Send ws p ∉ (step ev st).2.
Proof.
  intros Hen Hout Hclosed.
  assert (ws < length (sockets st)) as Hlt.
  { unfold readyState in Hclosed. destruct (sockets st !! ws) eqn:Hs; [|done].
    by eapply lookup_lt_Some. }
  split; [intros Hin; by destruct (step_clients ev st ws Hlt Hin)|].
  destruct ev as [|c message|c|c|c|]; cbn [step fst snd].
  - split; [|intros p; apply not_elem_of_nil].
    unfold on_connection, readyState in *. fields. by rewrite lookup_app_l.
  - rewrite readyState_on_message. split; [done|].
    intros p [->|[Hopen _]]%on_message_targets; [done|congruence].
  - split; [|intros p; apply not_elem_of_nil].
    unfold on_pong. by rewrite readyState_alter.
  - split; [|intros p; apply not_elem_of_nil].
    unfold readyState. rewrite on_close_sockets. unfold ws_closed. fields.
    unfold readyState in Hclosed. rewrite list_lookup_alter.
    destruct (decide (c = ws)) as [->|]; [|done].
    by destruct (sockets st !! ws).
  - split; [done|intros p; apply not_elem_of_nil].
  - split; [by apply heartbeat_loop_closed|].
    intros p. apply heartbeat_loop_no_send.
Qed.

Lemma closed_exec evs st st' out ws :
  exec evs st = Some (st', out) →
  ws ∉ clients st → readyState st ws = Some WebSocket.CLOSED →
  ∀ p, Send ws p ∉ out.
Proof.
  revert st st' out. induction evs as [|ev rest IH]; intros st st' out; cbn [exec].
  - intros [= _ <-] _ _ p. apply not_elem_of_nil.
  - destruct (decide (enabled ev st)) as [Hen|]; [|done].
    intros Hexec Hout Hclosed.
    destruct (closed_step ev st ws Hen Hout Hclosed) as (Hout1 & Hclosed1 & Hsend).
    destruct (step ev st) as [st1 out1]. cbn [fst snd] in *.
    destruct (exec rest st1) as [[st2 out2]|] eqn:Hexec1; [|done].
    cbn in Hexec. injection Hexec as _ <-.
    intros p [?|?]%elem_of_app; [by eapply Hsend|].
    by eapply IH.
Qed.

(** X5. Once a connection has closed, the server never sends it anything
    again, whatever happens afterwards: no acknowledgment and no relayed
    frame, even when the closed connection is still listed in a room. *)
Theorem closed_connection_receives_nothing st ws evs st' out :
  reachable st → ws ∈ clients st →
  exec (Close ws :: evs) st = Some (st', out) →
  ∀ p, Send ws p ∉ out.
Proof.
  intros Hwf%reachable_wf Hws. cbn [exec].
  rewrite decide_True by done.
  pose proof (close_leaves_clients ws st) as Hgone.
  assert (readyState (step (Close ws) st).1 ws = Some WebSocket.CLOSED) as Hclosed.
  { cbn [step fst]. unfold readyState. rewrite on_close_sockets.
    unfold ws_closed. fields. rewrite list_lookup_alter_eq.
    destruct (lookup_lt_is_Some_2 (sockets st) ws) as [s ->]; [|done].
    by apply Hwf. }
  destruct (step (Close ws) st) as [st1 out1] eqn:Hstep. cbn [fst] in *.
  assert (out1 = []) as -> by (cbn [step] in Hstep; congruence).
  destruct (exec evs st1) as [[st2 out2]|] eqn:Hexec1; [|done].
  cbn. intros [= _ <-]. by eapply closed_exec.
Qed.

(** ** The room recorded on a connection *)

Lemma heartbeat_loop_roomId todo st ws :
  roomId (heartbeat_loop todo st).1 ws = roomId st ws.
Proof.
  revert st. induction todo as [|c rest IH]; intros st; [done|].
  cbn [heartbeat_loop].
  assert (roomId (heartbeat_visit c st).1 ws = roomId st ws) as Hvisit.
  { unfold heartbeat_visit, ws_terminate.
    destruct (negb (isAlive st c)); cbn [fst]; apply roomId_alter; [|done].
    intros s. by destruct (WebSocket.readyState s). }
  destruct (heartbeat_visit c st) as [st1 a]. cbn [fst] in *.
  specialize (IH st1). destruct (heartbeat_loop rest st1). cbn [fst] in *.
  congruence.
Qed.

(** A step keeps what is recorded on a connection, except that handling
    its own [join-room] frame records the room it has just joined. *)
Lemma roomId_step ev st ws :
  ws < length (sockets st) →
  roomId (step ev st).1 ws = roomId st ws
  ∨ (∃ message data r sid p,
       ev = Message ws message
       ∧ read_message message = Normal (data, (VString "join-room", r, sid, p))
       ∧ roomId (step ev st).1 ws = r
       ∧ is_member (step ev st).1 r ws).
Proof.
  intros Hlt. destruct ev as [|c message|c|c|c|]; cbn [step fst].
  - left. unfold on_connection, roomId. fields. by rewrite lookup_app_l.
  - destruct (on_message_cases c message st)
      as [(data & r & sid & p & Hread & Hon)|Hsame]; [|left; by rewrite Hsame].
    rewrite Hon. destruct (decide (c = ws)) as [->|Hne].
    + right. exists message, data, r, sid, p. split_and!; [done..| |].
      * by apply join_room_roomId.
      * eexists. unfold rooms_get. rewrite join_room_rooms, decide_True by done.
        split; [done|]. apply elem_of_set_add. by left.
    + left. unfold roomId. by rewrite join_room_sockets, list_lookup_alter_ne.
  - left. unfold on_pong. by apply roomId_alter.
  - left. unfold roomId. rewrite on_close_sockets.
    apply (ws_closed_roomId c ws st).
  - by left.
  - left. apply heartbeat_loop_roomId.
Qed.

Lemma step_sockets_length ev st :
  length (sockets (step ev st).1) =
  match ev with
  | Connection => S (length (sockets st))
  | _ => length (sockets st)
  end.
Proof.
  destruct ev as [|c message|c|c|c|]; cbn [step fst].
  - unfold on_connection. fields. rewrite length_app. cbn. lia.
  - by destruct (on_message_frame c message st) as [_ ->].
  - unfold on_pong. fields. by rewrite length_alter.
  - rewrite on_close_sockets. unfold ws_closed. fields. by rewrite length_alter.
  - done.
  - unfold heartbeat.
    by destruct (heartbeat_loop_frame (clients st) st) as (_ & _ & ->).
Qed.

Lemma roomId_step_new ev st ws :
  (length (sockets st) ≤ ws)%nat → roomId (step ev st).1 ws = VUndefined.
Proof.
  intros Hge. unfold roomId.
  destruct (sockets (step ev st).1 !! ws) as [s|] eqn:Hs; [|done].
  apply lookup_lt_Some in Hs as Hlt. rewrite step_sockets_length in Hlt.
  destruct ev as [|c message|c|c|c|]; try lia.
  cbn [step fst] in Hs. unfold on_connection in Hs. fields.
  assert (ws = length (sockets st)) as -> by lia.
  rewrite lookup_app_r, Nat.sub_diag in Hs by done. by injection Hs as <-.
Qed.

Lemma recorded_room_invariant st ws :
  reachable st → ws ∈ clients st → key_of (roomId st ws) ≠ KUndefined →
  is_member st (roomId st ws) ws.
Proof.
  induction 1 as [|ev st Hst IH Hen].
  - by intros ?%not_elem_of_nil.
  - intros Hws Hrec.
    destruct (decide (ws < length (sockets st))) as [Hlt|Hge].
    + destruct (step_clients ev st ws Hlt Hws) as [Hws0 Hne].
      destruct (roomId_step ev st ws Hlt)
        as [Hsame|(message & data & r & sid & p & _ & _ & <- & Hmem)]; [|done].
      rewrite Hsame in Hrec |- *.
      apply is_member_step; [by apply IH|naive_solver].
    + rewrite roomId_step_new in Hrec by lia. done.
Qed.

(** X6. A connected peer is a member of the room recorded on it by its
    last [join-room] (when that identifier is not [undefined]), so a
    signaling frame that another connection addresses to that room is
    delivered to it exactly once while its [readyState] is OPEN, when
    the frame can be serialised and the log line of the callback
    written. *)
Theorem recorded_room_is_joined st ws :
  reachable st → ws ∈ clients st → key_of (roomId st ws) ≠ KUndefined →
  is_member st (roomId st ws) ws
  ∧ (∀ c message data type r sid p text,
       c ≠ ws → readyState st ws = Some WebSocket.OPEN →
       read_message message = Normal (data, (type, r, sid, p)) →
       is_signaling type = true → key_of r = key_of (roomId st ws) →
       JSON_stringify Callback data = Normal text →
       log_relayed r type = Normal () →
       deliveries ws (on_message c message st).2 = 1).
Proof.
  intros Hst Hws Hrec.
  pose proof (recorded_room_invariant st ws Hst Hws Hrec) as Hmem.
  split; [done|].
  intros c message data type r sid p text Hc Hopen Hread Hsig Hr Htext Hlog.
  destruct Hmem as (room & Hroom & Hin).
  rewrite (proj2 (on_message_relayed _ _ _ _ _ _ _ _ _ Hread Hsig Htext Hlog)).
  unfold rooms_get in *. rewrite Hr, Hroom. cbn [from_option].
  rewrite relayed_deliveries
    by (eapply wf_rooms_NoDup; [by apply reachable_wf|done]).
  by rewrite decide_True.
Qed.

(** ** One tick of the heartbeat *)

Lemma heartbeat_loop_actions todo st :
  NoDup todo →
  (heartbeat_loop todo st).2
  = (λ ws, if isAlive st ws then Ping ws else Terminate ws) <$> todo.
Proof.
  intros Hnd. revert st. induction Hnd as [|ws rest Hws Hrest IH]; intros st; [done|].
  cbn [heartbeat_loop].
  pose proof (heartbeat_visit_action ws st) as Hact.
  pose proof (λ c, heartbeat_visit_isAlive ws st c) as Hflag.
  destruct (heartbeat_visit ws st) as [st1 a]. cbn [fst snd] in *.
  specialize (IH st1). destruct (heartbeat_loop rest st1) as [st2 out].
  cbn [snd] in *. rewrite fmap_cons, Hact, IH. f_equal.
  apply list_fmap_ext. intros i c Hc. rewrite Hflag, decide_False; [done|].
  intros ->. apply Hws. by eapply list_elem_of_lookup_2.
Qed.

(** X7. One tick of the heartbeat visits every client once, in the order
    of [wss.clients]: a client whose flag is set is sent one probe and its
    flag is cleared, a client whose flag is clear is terminated.  After
    the tick every client's flag is clear.  The tick sends no message and
    touches neither the clients, the rooms nor what is recorded on a
    connection. *)
Theorem heartbeat_tick st :
  reachable st →
  (step Tick st).2
    = (λ ws, if isAlive st ws then Ping ws else Terminate ws) <$> clients st
  ∧ (∀ ws, isAlive (step Tick st).1 ws
           = if decide (ws ∈ clients st) then false else isAlive st ws)
  ∧ clients (step Tick st).1 = clients st
  ∧ rooms (step Tick st).1 = rooms st
  ∧ (∀ ws, roomId (step Tick st).1 ws = roomId st ws).
Proof.
  intros Hwf%reachable_wf. cbn [step]. unfold heartbeat.
  destruct (heartbeat_loop_frame (clients st) st) as (Hc & Hr & _).
  split_and!; [|by apply heartbeat_loop_isAlive|done|done|].
  - apply heartbeat_loop_actions, Hwf.
  - intros ws. apply heartbeat_loop_roomId.
Qed.

(** ** How membership changes *)

Lemma is_member_dec st r ws : Decision (is_member st r ws).
Proof.
  unfold is_member. destruct (rooms_get r st) as [room|].
  - destruct (decide (ws ∈ room)) as [Hin|Hout].
    + left. by exists room.
    + right. by intros (? & [= <-] & ?).
  - right. by intros (? & [=] & _).
Defined.

Lemma member_added_step ev st r ws :
  ¬ is_member st r ws → is_member (step ev st).1 r ws →
  ∃ data roomId senderId payload,
    ev = Message ws (Json data)
    ∧ read_message (Json data)
        = Normal (data, (VString "join-room", roomId, senderId, payload))
    ∧ key_of roomId = key_of r.
Proof.
  intros Hnot (room' & Hroom' & Hin'). unfold rooms_get in Hroom'.
  destruct ev as [|c message|c|c|c|];
    try (destruct Hnot; exists room'; split; [exact Hroom'|done]).
  - cbn [step] in Hroom'.
    destruct (on_message_cases c message st)
      as [(data & roomId & senderId & payload & Hread & Hon)|Hsame].
    + rewrite Hon, join_room_rooms in Hroom'.
      destruct (decide (key_of r = key_of roomId)) as [Heq|Hne];
        [|destruct Hnot; by exists room'].
      injection Hroom' as <-. apply elem_of_set_add in Hin' as [->|Hin].
      * destruct (read_message_inv _ _ _ _ _ _ Hread) as (-> & _).
        by exists data, roomId, senderId, payload.
      * destruct Hnot. unfold is_member, rooms_get. rewrite Heq.
        destruct (rooms st !! key_of roomId) as [old|]; cbn in Hin.
        -- by exists old.
        -- by apply not_elem_of_nil in Hin.
    + rewrite Hsame in Hroom'. destruct Hnot. by exists room'.
  - rewrite step_close_rooms in Hroom'.
    destruct (decide (cleaned_room c st = Some (key_of r)));
      [|destruct Hnot; by exists room'].
    destruct Hnot. unfold is_member, rooms_get.
    destruct (rooms st !! key_of r) as [old|]; cbn in Hroom'.
    + exists old. split; [done|].
      destruct (set_delete c old) eqn:Hdel; [done|].
      injection Hroom' as <-. rewrite <-Hdel in Hin'.
      by apply elem_of_set_delete in Hin' as [_ ?].
    + done.
  - cbn [step] in Hroom'. rewrite heartbeat_rooms in Hroom'.
    destruct Hnot. by exists room'.
Qed.

Lemma member_removed_step ev st r ws :
  is_member st r ws → ¬ is_member (step ev st).1 r ws →
  ev = Close ws ∧ cleaned_room ws st = Some (key_of r).
Proof.
  intros Hmem Hnot.
  destruct (decide (cleaned_room ws st = Some (key_of r))) as [Hclean|Hclean].
  - split; [|done].
    destruct ev as [|c message|c|c|c|];
      try (destruct Hnot; by apply is_member_step).
    destruct (decide (c = ws)) as [->|Hne]; [done|].
    destruct Hnot. apply is_member_step; [done|]. by intros [= ->].
  - destruct Hnot. by apply is_member_step.
Qed.

(** X8. The member sets change only through a connection's own events.
    A connection becomes a member of a room only when the server handles
    a [join-room] frame that this very connection sent for that room, and
    it stops being a member only through its own close, and then only for
    the room recorded on it.  No frame, pong, error or tick of another
    connection adds or removes it. *)
Theorem membership_changes_by_own_events ev st r ws :
  (¬ is_member st r ws → is_member (step ev st).1 r ws →
   ∃ data roomId senderId payload,
     ev = Message ws (Json data)
     ∧ read_message (Json data)
         = Normal (data, (VString "join-room", roomId, senderId, payload))
     ∧ key_of roomId = key_of r)
  ∧ (is_member st r ws → ¬ is_member (step ev st).1 r ws →
     ev = Close ws ∧ cleaned_room ws st = Some (key_of r)).
Proof. split; [apply member_added_step|apply member_removed_step]. Qed.

(** ** A connection that has not joined *)

Lemma members_accepted st r ws :
  reachable st → is_member st r ws → ws < length (sockets st).
Proof.
  induction 1 as [|ev st Hst IH Hen].
  - intros (room & Hroom & _). unfold rooms_get in Hroom. cbn in Hroom.
    by rewrite lookup_empty in Hroom.
  - intros Hmem. pose proof (step_length ev st) as Hlen.
    destruct (is_member_dec st r ws) as [Hbefore|Hnot].
    + specialize (IH Hbefore). lia.
    + destruct (member_added_step ev st r ws Hnot Hmem)
        as (data & roomId & senderId & payload & -> & _).
      cbn [enabled] in Hen.
      pose proof (wf_clients_lt _ (reachable_wf _ Hst) _ Hen). lia.
Qed.

Lemma outsider_step ev st ws :
  (∀ message, ev ≠ Message ws message) →
  (∀ r, ¬ is_member st r ws) →
  (∀ r, ¬ is_member (step ev st).1 r ws) ∧ ∀ p, Send ws p ∉ (step ev st).2.
Proof.
  intros Hev Hout. split.
  - intros r Hmem.
    destruct (member_added_step ev st r ws (Hout r) Hmem) as (data & ? & ? & ? & -> & _).
    by eapply Hev.
  - intros p. destruct ev as [|c message|c|c|c|]; cbn [step snd];
      try apply not_elem_of_nil.
    + intros [->|[_ [r Hmem]]]%on_message_targets; [by eapply Hev|].
      by eapply Hout.
    + apply heartbeat_loop_no_send.
Qed.

Lemma outsider_exec evs st st' out ws :
  exec evs st = Some (st', out) →
  (∀ message, Message ws message ∉ evs) →
  (∀ r, ¬ is_member st r ws) →
  (∀ r, ¬ is_member st' r ws) ∧ ∀ p, Send ws p ∉ out.
Proof.
  revert st st' out. induction evs as [|ev rest IH]; intros st st' out; cbn [exec].
  - intros [= <- <-] _ Hout. split; [done|]. intros p. apply not_elem_of_nil.
  - destruct (decide (enabled ev st)) as [Hen|]; [|done].
    intros Hexec Hsilent Hout.
    destruct (outsider_step ev st ws) as [Hout1 Hsend1]; [|done|].
    { intros message ->. apply (Hsilent message). by left. }
    destruct (step ev st) as [st1 out1]. cbn [fst snd] in *.
    destruct (exec rest st1) as [[st2 out2]|] eqn:Hexec1; [|done].
    cbn in Hexec. injection Hexec as <- <-.
    destruct (IH _ _ _ Hexec1) as [Hout2 Hsend2]; [|done|].
    { intros message Hin. apply (Hsilent message). by right. }
    split; [done|].
    intros p [?|?]%elem_of_app; [by eapply Hsend1|by eapply Hsend2].
Qed.

(** X9. A connection that has been accepted and sends no frame is in no
    room and is never sent anything, whatever the other connections do:
    nobody can put another connection into a room or address a frame to a
    connection outside the rooms. *)
Theorem silent_connection_receives_nothing st evs st' out :
  reachable st →
  exec (Connection :: evs) st = Some (st', out) →
  (∀ message, Message (length (sockets st)) message ∉ evs) →
  (∀ r, ¬ is_member st' r (length (sockets st)))
  ∧ ∀ p, Send (length (sockets st)) p ∉ out.
Proof.
  intros Hst. cbn [exec]. rewrite decide_True by done. cbn [step].
  destruct (exec evs (on_connection st)) as [[st1 out1]|] eqn:Hexec; [|done].
  cbn. intros [= <- <-] Hsilent.
  eapply outsider_exec; [done..|].
  intros r (room & Hroom & Hin).
  assert (is_member st r (length (sockets st))) as Hmem by by exists room.
  apply (members_accepted _ _ _ Hst) in Hmem. lia.
Qed.

(** ** A connection that joins one room *)

Lemma exec_length evs st st' out :
  exec evs st = Some (st', out) →
  (length (sockets st) ≤ length (sockets st'))%nat.
Proof.
  revert st st' out. induction evs as [|ev rest IH]; intros st st' out; cbn [exec].
  - by intros [= <- _].
  - destruct (decide (enabled ev st)); [|done].
    pose proof (step_length ev st) as Hlen.
    destruct (step ev st) as [st1 out1]. cbn [fst] in Hlen.
    destruct (exec rest st1) as [[st2 out2]|] eqn:Hexec1; [|done].
    cbn. intros [= <- _]. specialize (IH _ _ _ Hexec1). lia.
Qed.

Lemma only_in_recorded_room_step ev st ws :
  (∀ message, ev ≠ Message ws message) → ws < length (sockets st) →
  only_in_recorded_room st ws →
  roomId (step ev st).1 ws = roomId st ws
  ∧ only_in_recorded_room (step ev st).1 ws.
Proof.
  intros Hev Hlt Honly.
  assert (roomId (step ev st).1 ws = roomId st ws) as Hsame.
  { destruct (roomId_step ev st ws Hlt) as [?|(message & ? & ? & ? & ? & -> & _)];
      [done|]. by destruct (Hev message). }
  split; [done|]. intros r Hmem. rewrite Hsame.
  destruct (is_member_dec st r ws) as [Hbefore|Hnot]; [by apply Honly|].
  destruct (member_added_step ev st r ws Hnot Hmem) as (data & ? & ? & ? & -> & _).
  by destruct (Hev (Json data)).
Qed.

Lemma only_in_recorded_room_exec evs st st' out ws :
  exec evs st = Some (st', out) →
  (∀ message, Message ws message ∉ evs) → ws < length (sockets st) →
  only_in_recorded_room st ws →
  roomId st' ws = roomId st ws ∧ only_in_recorded_room st' ws.
Proof.
  revert st st' out. induction evs as [|ev rest IH]; intros st st' out; cbn [exec].
  - by intros [= <- _].
  - destruct (decide (enabled ev st)); [|done].
    intros Hexec Hsilent Hlt Honly.
    destruct (only_in_recorded_room_step ev st ws) as [Hid1 Honly1]; [|done..|].
    { intros message ->. apply (Hsilent message). by left. }
    pose proof (step_length ev st) as Hlen.
    destruct (step ev st) as [st1 out1]. cbn [fst] in *.
    destruct (exec rest st1) as [[st2 out2]|] eqn:Hexec1; [|done].
    cbn in Hexec. injection Hexec as <- _.
    destruct (IH _ _ _ Hexec1) as [Hid2 Honly2]; [|lia|done|].
    { intros message Hin. apply (Hsilent message). by right. }
    split; [congruence|done].
Qed.

Lemma close_removes_from_recorded_room_only st ws :
  ToBoolean (roomId st ws) = true → only_in_recorded_room st ws →
  ∀ r, ¬ is_member (step (Close ws) st).1 r ws.
Proof.
  intros Htruthy Honly r Hmem.
  destruct (is_member_dec st r ws) as [Hbefore|Hnot].
  - destruct Hmem as (room & Hroom & Hin).
    unfold rooms_get in Hroom. rewrite (Honly r Hbefore) in Hroom.
    by eapply close_leaves_recorded_room.
  - by destruct (member_added_step _ st r ws Hnot Hmem) as (? & ? & ? & ? & [=] & _).
Qed.

Lemma silent_outsider st evs st' out :
  reachable st →
  exec (Connection :: evs) st = Some (st', out) →
  (∀ message, Message (length (sockets st)) message ∉ evs) →
  (∀ r, ¬ is_member st' r (length (sockets st)))
  ∧ length (sockets st) < length (sockets st').
Proof.
  intros Hst. cbn [exec]. rewrite decide_True by done. cbn [step].
  destruct (exec evs (on_connection st)) as [[st1 out1]|] eqn:Hexec; [|done].
  cbn. intros [= <- _] Hsilent. split.
  - eapply outsider_exec; [done..|].
    intros r (room & Hroom & Hin).
    assert (is_member st r (length (sockets st))) as Hmem by by exists room.
    apply (members_accepted _ _ _ Hst) in Hmem. lia.
  - apply exec_length in Hexec. revert Hexec.
    unfold on_connection. fields. rewrite length_app. cbn. lia.
Qed.

(** X10. A connection that joins exactly one room, under a truthy
    identifier, and then disconnects leaves no trace: whatever the other
    connections do in between, after its close it is a member of no
    room. *)
Theorem single_join_leaves_no_trace
    st evs1 evs2 message data r senderId payload st' out :
  reachable st →
  read_message message = Normal (data, (VString "join-room", r, senderId, payload)) →
  ToBoolean r = true →
  (∀ m, Message (length (sockets st)) m ∉ evs1) →
  (∀ m, Message (length (sockets st)) m ∉ evs2) →
  exec (Connection :: evs1 ++ Message (length (sockets st)) message
          :: evs2 ++ [Close (length (sockets st))]) st = Some (st', out) →
  ∀ r', ¬ is_member st' r' (length (sockets st)).
Proof.
  intros Hst Hread Htruthy Hsilent1 Hsilent2.
  set (ws := length (sockets st)) in *.
  change (Connection :: evs1 ++ Message ws message :: evs2 ++ [Close ws])
    with ((Connection :: evs1) ++ (Message ws message :: evs2) ++ [Close ws]).
  rewrite exec_app.
  destruct (exec (Connection :: evs1) st) as [[sta outa]|] eqn:Hexec1; [|done].
  cbn [mbind option_bind]. rewrite exec_app.
  destruct (exec (Message ws message :: evs2) sta) as [[stc outc]|] eqn:Hexec2;
    [|done].
  cbn [mbind option_bind]. cbn [exec].
  destruct (decide (enabled (Close ws) stc)) as [Hen|]; [|done].
  intros Hexec.
  assert (st' = (step (Close ws) stc).1) as ->.
  { destruct (step (Close ws) stc). cbn in Hexec. by injection Hexec as <- _. }
  clear Hexec.
  (* the connection is accepted and stays out of the rooms until it joins *)
  destruct (silent_outsider st evs1 sta outa Hst Hexec1 Hsilent1) as [Hout Hlta].
  (* the join *)
  cbn [exec] in Hexec2.
  destruct (decide (enabled (Message ws message) sta)) as [Hwsa|]; [|done].
  pose proof (λ r', member_added_step (Message ws message) sta r' ws (Hout r'))
    as Hadded.
  pose proof (roomId_step (Message ws message) sta ws Hlta) as Hid.
  pose proof (step_length (Message ws message) sta) as Hlen.
  cbn [step] in *.
  destruct (on_message_join ws message sta _ _ _ _ Hread) as (_ & Hstb & _).
  pose proof (join_room_roomId ws r senderId sta Hlta) as Hrec.
  rewrite <-Hstb in Hrec.
  destruct (on_message ws message sta) as [stb outb]. cbn [fst] in *. clear Hstb.
  destruct (exec evs2 stb) as [[stc' outc']|] eqn:Hexec3; [|done].
  cbn in Hexec2. injection Hexec2 as ->.
  assert (only_in_recorded_room stb ws) as Honly.
  { intros r' Hmem. rewrite Hrec.
    destruct (Hadded r' Hmem) as (data' & r'' & ? & ? & [= ->] & Hread' & <-).
    destruct (read_message_inv _ _ _ _ _ _ Hread) as ([= ->] & _).
    rewrite Hread in Hread'. by injection Hread' as <-. }
  destruct (only_in_recorded_room_exec evs2 stb _ _ ws Hexec3 Hsilent2)
    as [Hidc Honlyc]; [lia|done|].
  apply close_removes_from_recorded_room_only; [|done].
  by rewrite Hidc, Hrec.
Qed.

(** ** The size of a room *)

Lemma length_set_delete x (s : list nat) :
  NoDup s →
  length (set_delete x s) = length s - (if decide (x ∈ s) then 1 else 0).
Proof.
  unfold set_delete.
  induction 1 as [|y s Hy Hs IH]; [done|].
  rewrite filter_cons. destruct (decide (y ≠ x)) as [Hne|Heq%dec_stable].
  - cbn [length]. rewrite IH.
    destruct (decide (x ∈ s)) as [Hin|Hnin].
    + rewrite decide_True by by right.
      destruct s; [by apply not_elem_of_nil in Hin|cbn; lia].
    + rewrite decide_False; [lia|].
      intros [?|?]%elem_of_cons; [congruence|done].
  - subst y. rewrite IH, decide_False by done.
    rewrite decide_True by by left. cbn. lia.
Qed.

Lemma truthy_key v : ToBoolean v = true → key_of v ≠ KUndefined.
Proof. by destruct v as [| | |[]| | |]. Qed.

(** X11. The size of a room counts its members.  A [join-room] frame
    for room [r] makes the room one larger when the sender was not a
    member and leaves its size alone when it was; a close that cleans
    room [r] makes it one smaller. *)
Theorem room_size_counts_members st ws r :
  reachable st → ws ∈ clients st →
  (∀ message data senderId payload,
     read_message message
       = Normal (data, (VString "join-room", r, senderId, payload)) →
     (is_member st r ws →
      room_size r (step (Message ws message) st).1 = room_size r st)
     ∧ (¬ is_member st r ws →
        room_size r (step (Message ws message) st).1 = S (room_size r st)))
  ∧ (cleaned_room ws st = Some (key_of r) →
     S (room_size r (step (Close ws) st).1) = room_size r st).
Proof.
  intros Hst Hws. pose proof (reachable_wf _ Hst) as Hwf. split.
  - intros message data senderId payload Hread. cbn [step].
    destruct (on_message_join ws message st _ _ _ _ Hread) as (_ & -> & _).
    unfold room_size.
    rewrite join_room_rooms_insert, lookup_insert_eq. cbn [from_option].
    destruct (rooms st !! key_of r) as [room|] eqn:Hroom; cbn [default from_option].
    + pose proof (wf_rooms_NoDup _ Hwf _ _ Hroom) as Hnodup.
      split.
      * intros (room' & Hroom' & Hin).
        unfold rooms_get in Hroom'. rewrite Hroom in Hroom'.
        injection Hroom' as <-. by rewrite set_add_elem.
      * intros Hnot. rewrite set_add_fresh, length_app; [cbn; lia|].
        intros Hin. apply Hnot. by exists room.
    + split; [|done].
      intros (room' & Hroom' & _). unfold rooms_get in Hroom'. congruence.
  - intros Hclean. unfold room_size.
    rewrite step_close_rooms_eq, Hclean.
    pose proof Hclean as (Htruthy & Hrec & Hhas)%cleaned_room_Some.
    assert (is_member st (roomId st ws) ws) as (room & Hroom & Hin).
    { apply recorded_room_invariant; [done..|]. by apply truthy_key. }
    unfold rooms_get in Hroom. rewrite <-Hrec in Hroom.
    pose proof (wf_rooms_NoDup _ Hwf _ _ Hroom) as Hnodup.
    rewrite Hroom. cbn [default from_option id].
    pose proof (length_set_delete ws room Hnodup) as Hlen.
    rewrite decide_True in Hlen by done.
    assert (0 < length room) by (destruct room; [by apply not_elem_of_nil in Hin|cbn; lia]).
    destruct (set_delete ws room) as [|c room'] eqn:Hdel; cbv beta iota.
    + rewrite lookup_delete_eq. cbn in *. lia.
    + rewrite lookup_insert_eq. cbn in *. lia.
Qed.

(** * Properties of the checked relay *)

(** The checked relay moves through states of the room relay in which
    nobody has joined a room. *)
Lemma checked_step_state ev st :
  rooms st = ∅ →
  (Checked.step ev st).1
    = match ev with Message _ _ => st | _ => (step ev st).1 end
  ∧ rooms (Checked.step ev st).1 = ∅.
Proof.
  intros Hrooms. destruct ev as [|c message|c|c|c|]; cbn [Checked.step step fst].
  - split; [done|]. unfold on_connection. by fields.
  - done.
  - split; [done|]. unfold on_pong. by fields.
  - unfold on_close, rooms_has. rewrite ws_closed_rooms, Hrooms, lookup_empty.
    rewrite bool_decide_eq_false_2 by by intros [? ?].
    by rewrite andb_false_r.
  - done.
  - pose proof (heartbeat_rooms st) as Hsame.
    destruct (heartbeat st) as [st1 out]. cbn [fst] in *. by rewrite Hsame.
Qed.

Lemma checked_reachable st :
  Checked.reachable st → reachable st ∧ rooms st = ∅.
Proof.
  induction 1 as [|ev st Hst [IH Hrooms] Hen].
  - split; [constructor|done].
  - destruct (checked_step_state ev st Hrooms) as [-> Hrooms1]. split; [|done].
    destruct ev; try done; by apply reachable_step.
Qed.

Lemma checked_forwards_fmap c message (l : list nat) :
  Checked.forwards c ((λ x, Checked.Forward x message) <$> l)
  = length (filter (λ x, x = c) l).
Proof.
  unfold Checked.forwards. induction l as [|x l IH]; [done|].
  rewrite fmap_cons, !filter_cons. cbn [Checked.forwarded_to].
  destruct (decide (x = c)); cbn; by rewrite IH.
Qed.

(** X14. The checked relay forwards a frame as it was received, and
    only to connections.  A frame that parses to a value other than
    [null], whose [type] can be printed, goes exactly once to every
    connection of [wss.clients] other than the sender whose [readyState]
    is OPEN, whatever the value is: a bare number is forwarded.  A frame
    that does not parse, that parses to [null], or whose [type] cannot be
    printed is dropped. *)
Theorem checked_relay_forwards_parsed_frames st ws message :
  Checked.reachable st →
  (∀ a, a ∈ Checked.on_message ws message st →
        ∃ c, a = Checked.Forward c message)
  ∧ (∀ data,
       message = Json data → data ≠ VUndefined → data ≠ VNull →
       ¬ unprintable (toString_depth Body) (get data "type") →
       ∀ c, Checked.forwards c (Checked.on_message ws message st) =
            if decide (c ∈ clients st ∧ c ≠ ws
                       ∧ readyState st c = Some WebSocket.OPEN)
            then 1 else 0)
  ∧ (message = Unparseable ∨ message = Json VNull
     ∨ (∃ data, message = Json data
                ∧ unprintable (toString_depth Body) (get data "type")) →
     Checked.on_message ws message st = []).
Proof.
  intros [Hwf%reachable_wf _]%checked_reachable. split_and!.
  - unfold Checked.on_message.
    destruct (Checked.read_type message) as [data|e].
    + intros a (c & -> & _)%list_elem_of_fmap. by exists c.
    + by intros a ?%not_elem_of_nil.
  - intros data -> Hundef Hnull Hprint%ToString_Normal c.
    assert (Checked.read_type (Json data) = Normal data) as Hread.
    { unfold Checked.read_type. cbn [JSON_parse mbind completion_bind JS.bind].
      destruct data; try done; cbn [mbind completion_bind JS.bind];
        by rewrite Hprint. }
    unfold Checked.on_message. rewrite Hread. unfold Checked.broadcast.
    rewrite checked_forwards_fmap, NoDup_count
      by (apply NoDup_filter; apply (wf_clients_NoDup _ Hwf)).
    apply decide_ext. rewrite list_elem_of_filter. unfold relay_target. tauto.
  - unfold Checked.on_message, Checked.read_type.
    intros [->|[->|(data & -> & Hprint)]]; [done..|].
    cbn [JSON_parse mbind completion_bind JS.bind].
    destruct (ToString (toString_depth Body) (get data "type")) as [[]|e] eqn:Htype.
    + by apply ToString_Normal in Htype.
    + destruct data; cbn [mbind completion_bind JS.bind]; by rewrite ?Htype.
Qed.

End properties.

(** * Properties of the plain relay *)

Lemma plain_readyState_lt st c rs :
  Broadcast.readyState st c = Some rs → c < length (Broadcast.sockets st).
Proof. apply lookup_lt_Some. Qed.

Lemma plain_step_invariant ev st :
  Broadcast.enabled ev st →
  NoDup (Broadcast.clients st) →
  (∀ c, c ∈ Broadcast.clients st ↔ Broadcast.live st c) →
  NoDup (Broadcast.clients (Broadcast.step ev st).1)
  ∧ (∀ c, c ∈ Broadcast.clients (Broadcast.step ev st).1
          ↔ Broadcast.live (Broadcast.step ev st).1 c)
  ∧ length (Broadcast.clients (Broadcast.step ev st).1)
      + Broadcast.closed [ev]
    = length (Broadcast.clients st) + Broadcast.accepted [ev].
Proof.
  intros Hen Hnd Hlive.
  destruct ev as [|ws messageStr|ws|ws]; cbn [Broadcast.step fst Broadcast.enabled] in *.
  - assert (length (Broadcast.sockets st) ∉ Broadcast.clients st) as Hfresh.
    { intros [Hl|Hl]%Hlive; apply plain_readyState_lt in Hl; lia. }
    unfold Broadcast.on_connection.
    cbn [Broadcast.clients Broadcast.closed Broadcast.accepted]. split_and!.
    + by apply NoDup_set_add.
    + intros c. rewrite elem_of_set_add, Hlive.
      unfold Broadcast.live, Broadcast.readyState. cbn [Broadcast.sockets].
      destruct (decide (c < length (Broadcast.sockets st))) as [Hlt|Hge].
      * rewrite lookup_app_l by done. split; [|tauto].
        intros [->|?]; [lia|done].
      * rewrite lookup_app_r by lia.
        rewrite (lookup_ge_None_2 (Broadcast.sockets st) c) by lia.
        destruct (decide (c = length (Broadcast.sockets st))) as [->|Hne].
        -- rewrite Nat.sub_diag. cbn. split; [by left|by left].
        -- destruct (c - length (Broadcast.sockets st)) as [|k] eqn:Hk; [lia|].
           cbn. split; [intros [?|[?|?]]; done|intros [?|?]; done].
    + rewrite set_add_fresh, length_app by done. cbn. lia.
  - cbn. split_and!; [done|done|lia].
  - unfold Broadcast.ws_closing.
    cbn [Broadcast.clients Broadcast.closed Broadcast.accepted].
    split_and!; [done| |lia].
    intros c. rewrite Hlive.
    unfold Broadcast.live, Broadcast.readyState in *. cbn [Broadcast.sockets].
    destruct (decide (ws = c)) as [->|Hne].
    + rewrite list_lookup_insert_eq by by eapply lookup_lt_Some. naive_solver.
    + by rewrite list_lookup_insert_ne.
  - assert (ws ∈ Broadcast.clients st) as Hws by by apply Hlive.
    unfold Broadcast.on_close, Broadcast.ws_closed.
    cbn [Broadcast.clients Broadcast.sockets Broadcast.closed Broadcast.accepted].
    split_and!.
    + by apply NoDup_set_delete.
    + intros c. rewrite elem_of_set_delete, Hlive.
      unfold Broadcast.live, Broadcast.readyState in *. cbn [Broadcast.sockets].
      destruct (decide (ws = c)) as [->|Hne].
      * rewrite list_lookup_insert_eq by (destruct Hen; by eapply lookup_lt_Some).
        naive_solver.
      * rewrite list_lookup_insert_ne by done. naive_solver.
    + rewrite length_set_delete, decide_True by done.
      destruct (Broadcast.clients st); [by apply not_elem_of_nil in Hws|cbn; lia].
Qed.

Lemma plain_invariant st :
  Broadcast.reachable st →
  NoDup (Broadcast.clients st)
  ∧ ∀ c, c ∈ Broadcast.clients st ↔ Broadcast.live st c.
Proof.
  induction 1 as [|ev st Hst [Hnd Hlive] Hen].
  - split; [constructor|]. intros c. split; [by intros ?%not_elem_of_nil|].
    unfold Broadcast.live, Broadcast.readyState. cbn. intros [?|?]; done.
  - by destruct (plain_step_invariant ev st Hen Hnd Hlive) as (? & ? & _).
Qed.

Lemma plain_deliveries_fmap c messageStr (l : list nat) :
  Broadcast.deliveries c ((λ x, Broadcast.Send x messageStr) <$> l)
  = length (filter (λ x, x = c) l).
Proof.
  unfold Broadcast.deliveries. induction l as [|x l IH]; [done|].
  rewrite fmap_cons, !filter_cons. cbn [Broadcast.sent_to].
  destruct (decide (x = c)); cbn; by rewrite IH.
Qed.

(** X12. In the plain relay, the text of a frame goes exactly once to
    every connection other than the sender whose [readyState] is OPEN,
    and to no other connection; nothing but that text is sent.  So no
    open connection is ever missing from the script's own set, and none
    is in it twice. *)
Theorem plain_relay_reaches_open_connections st ws messageStr :
  Broadcast.reachable st →
  (∀ a, a ∈ Broadcast.on_message ws messageStr st →
        ∃ c, a = Broadcast.Send c messageStr)
  ∧ ∀ c, Broadcast.deliveries c (Broadcast.on_message ws messageStr st) =
         if decide (c ≠ ws ∧ Broadcast.readyState st c = Some WebSocket.OPEN)
         then 1 else 0.
Proof.
  intros [Hnd Hlive]%plain_invariant. unfold Broadcast.on_message. split.
  - intros a (c & -> & _)%list_elem_of_fmap. by exists c.
  - intros c. rewrite plain_deliveries_fmap, NoDup_count by by apply NoDup_filter.
    apply decide_ext. rewrite list_elem_of_filter, Hlive.
    unfold Broadcast.relay_target, Broadcast.live. naive_solver.
Qed.

Lemma plain_relay_reaches_open_connections_witness :
  Broadcast.exec
    [Broadcast.Connection; Broadcast.Connection; Broadcast.Connection;
     Broadcast.Closing 2; Broadcast.Message 0 "offer"]
    Broadcast.initial
  = Some (Broadcast.Server
            [WebSocket.OPEN; WebSocket.OPEN; WebSocket.CLOSING] [0; 1; 2],
          [Broadcast.Send 1 "offer"])
  ∧ Broadcast.deliveries 1
      (Broadcast.on_message 0 "offer"
         (Broadcast.Server
            [WebSocket.OPEN; WebSocket.OPEN; WebSocket.CLOSING] [0; 1; 2])) = 1.
Proof.
  split; [reflexivity|].
  assert (Broadcast.reachable
            (Broadcast.Server
               [WebSocket.OPEN; WebSocket.OPEN; WebSocket.CLOSING] [0; 1; 2]))
    as Hst.
  { apply (Broadcast.reachable_step (Broadcast.Closing 2)
             (Broadcast.Server [WebSocket.OPEN; WebSocket.OPEN; WebSocket.OPEN]
                [0; 1; 2])); [|reflexivity].
    apply (Broadcast.reachable_step Broadcast.Connection
             (Broadcast.Server [WebSocket.OPEN; WebSocket.OPEN] [0; 1]));
      [|exact I].
    apply (Broadcast.reachable_step Broadcast.Connection
             (Broadcast.Server [WebSocket.OPEN] [0])); [|exact I].
    apply (Broadcast.reachable_step Broadcast.Connection Broadcast.initial);
      [|exact I].
    constructor. }
  apply (proj2 (plain_relay_reaches_open_connections _ 0 "offer" Hst) 1).
Defined.

Lemma plain_reachable_exec evs st st' out :
  Broadcast.reachable st → Broadcast.exec evs st = Some (st', out) →
  Broadcast.reachable st'.
Proof.
  revert st st' out. induction evs as [|ev rest IH]; intros st st' out Hst;
    cbn [Broadcast.exec].
  - by intros [= <- _].
  - destruct (decide (Broadcast.enabled ev st)) as [Hen|]; [|done].
    pose proof (Broadcast.reachable_step ev st Hst Hen) as Hst1.
    destruct (Broadcast.step ev st) as [st1 out1]. cbn [fst] in Hst1.
    destruct (Broadcast.exec rest st1) as [[st2 out2]|] eqn:Hexec; [|done].
    cbn. intros [= <- _]. by eapply IH.
Qed.

Lemma plain_count_exec evs st st' out :
  Broadcast.reachable st → Broadcast.exec evs st = Some (st', out) →
  length (Broadcast.clients st') + Broadcast.closed evs
  = length (Broadcast.clients st) + Broadcast.accepted evs.
Proof.
  revert st st' out. induction evs as [|ev rest IH]; intros st st' out Hst;
    cbn [Broadcast.exec].
  - intros [= <- _]. cbn. lia.
  - destruct (decide (Broadcast.enabled ev st)) as [Hen|]; [|done].
    pose proof (Broadcast.reachable_step ev st Hst Hen) as Hst1.
    destruct (plain_invariant st Hst) as [Hnd Hlive].
    destruct (plain_step_invariant ev st Hen Hnd Hlive) as (_ & _ & Hcount).
    destruct (Broadcast.step ev st) as [st1 out1]. cbn [fst] in *.
    destruct (Broadcast.exec rest st1) as [[st2 out2]|] eqn:Hexec; [|done].
    cbn [mbind option_bind]. intros [= <- _].
    specialize (IH _ _ _ Hst1 Hexec).
    destruct ev; cbn [Broadcast.closed Broadcast.accepted] in *; lia.
Qed.

(** X13. The set of the plain relay holds exactly the connections that
    were accepted and have not closed, each once: after any run its size,
    the total that the script logs, is the number of connections accepted
    minus the number closed. *)
Theorem plain_relay_client_count evs st out :
  Broadcast.exec evs Broadcast.initial = Some (st, out) →
  NoDup (Broadcast.clients st)
  ∧ (∀ c, c ∈ Broadcast.clients st ↔ Broadcast.live st c)
  ∧ length (Broadcast.clients st) + Broadcast.closed evs = Broadcast.accepted evs.
Proof.
  intros Hexec.
  pose proof (plain_reachable_exec _ _ _ _ Broadcast.reachable_initial Hexec) as Hst.
  destruct (plain_invariant st Hst) as [Hnd Hlive]. split_and!; [done..|].
  apply (plain_count_exec _ _ _ _ Broadcast.reachable_initial Hexec).
Qed.

Lemma plain_relay_client_count_witness :
  length (Broadcast.clients (Broadcast.Server [WebSocket.OPEN; WebSocket.CLOSED] [0]))
    + Broadcast.closed [Broadcast.Connection; Broadcast.Connection;
                        Broadcast.Closing 1; Broadcast.Close 1]
  = Broadcast.accepted [Broadcast.Connection; Broadcast.Connection;
                        Broadcast.Closing 1; Broadcast.Close 1].
Proof.
  eapply (plain_relay_client_count
            [Broadcast.Connection; Broadcast.Connection;
             Broadcast.Closing 1; Broadcast.Close 1] _ []).
  reflexivity.
Defined.

(** * Examples

    The properties above at concrete frames and states, and the runs that
    refute the claims that had to be amended.  They are run on
    [sample_runtime]. *)

Section examples.

Existing Instance sample_runtime.

Lemma reachable_two_in_r1 : reachable two_in_r1.
Proof. apply reachable_state_after. vm_compute. eauto. Qed.

Lemma reachable_one_in_each : reachable one_in_each.
Proof. apply reachable_state_after. vm_compute. eauto. Qed.

(** ** Joining a room *)

(** C1, refuted as stated.  Connection 0 sends a [join-room] frame for
    room [r1] whose [senderId] is an object that owns a property named
    [toString].  Building the log line of line 33 throws, the [catch]
    clause returns: no room is made and no acknowledgment is sent.  It
    then sends a [join-room] frame whose [roomId] is ten thousand objects
    deep: the log line is built and the room is made, but
    [JSON.stringify] overflows the stack on the acknowledgment, and
    nothing is sent. *)
Lemma join_frame_can_be_dropped :
  get join_r1_unprintable "type" = VString "join-room"
  ∧ get join_r1_unprintable "roomId" = VString "r1"
  ∧ enabled (Message 0 (Json join_r1_unprintable)) (state_after [Connection])
  ∧ on_message 0 (Json join_r1_unprintable) (state_after [Connection])
    = (state_after [Connection], [])
  ∧ rooms_get (VString "r1")
      (on_message 0 (Json join_r1_unprintable) (state_after [Connection])).1
    = None
  ∧ get join_deep "type" = VString "join-room"
  ∧ rooms_get (get join_deep "roomId")
      (on_message 0 (Json join_deep) (state_after [Connection])).1
    = Some [0]
  ∧ (on_message 0 (Json join_deep) (state_after [Connection])).2 = [].
Proof. split_and!; try by vm_compute. vm_compute. by left. Qed.

Lemma join_room_acknowledged_witness :
  read_message (Json join_r1_operator)
    = Normal (join_r1_operator,
              (VString "join-room", VString "r1", VString "operator", VUndefined))
  ∧ rooms_get (VString "r1") two_in_r1 = Some [0; 1]
  ∧ (on_message 1 (Json join_r1_operator) two_in_r1).2
      = [Send 1 (joined_text "r1" 2)].
Proof.
  assert (read_message (Json join_r1_operator)
    = Normal (join_r1_operator,
              (VString "join-room", VString "r1", VString "operator", VUndefined)))
    as Hread by reflexivity.
  destruct (join_room_acknowledged two_in_r1 1 _ _ _ _ _ Hread)
    as (_ & Hsame & room' & Hroom' & _ & _ & Hout).
  specialize (Hsame [0; 1] eq_refl).
  split_and!; [done|reflexivity|].
  rewrite Hsame in Hroom'. injection Hroom' as <-.
  change (JSON_stringify _ _) with (Normal (joined_text "r1" 2)) in Hout.
  apply Hout.
Defined.

(** ** Relaying *)

(** C2, refuted as stated.  Both connections are in room [r1] and OPEN.
    Connection 1 sends an offer for [r1] whose [senderId] is an object
    that owns a property named [toString]: the log line throws and
    connection 0 gets nothing.  It then sends an offer for [r1] whose
    [payload] is ten thousand arrays deep: the frame is read, but
    [JSON.stringify] overflows the stack at the first member it is to be
    sent to, and connection 0 gets nothing either. *)
Lemma relay_can_reach_nobody :
  rooms_get (VString "r1") two_in_r1 = Some [0; 1]
  ∧ readyState two_in_r1 0 = Some WebSocket.OPEN
  ∧ is_signaling (get offer_r1_unprintable "type") = true
  ∧ get offer_r1_unprintable "roomId" = VString "r1"
  ∧ on_message 1 (Json offer_r1_unprintable) two_in_r1 = (two_in_r1, [])
  ∧ deliveries 0 (on_message 1 (Json offer_r1_unprintable) two_in_r1).2 = 0
  ∧ is_signaling (get offer_r1_deep "type") = true
  ∧ get offer_r1_deep "roomId" = VString "r1"
  ∧ JSON_stringify Callback offer_r1_deep = Throw RangeError
  ∧ on_message 1 (Json offer_r1_deep) two_in_r1 = (two_in_r1, [])
  ∧ deliveries 0 (on_message 1 (Json offer_r1_deep) two_in_r1).2 = 0.
Proof. split_and!; by vm_compute. Qed.

Lemma relay_reaches_the_others_witness :
  rooms_get (VString "r1") two_in_r1 = Some [0; 1]
  ∧ JSON_stringify Callback offer_r1 = Normal (Some (json_of offer_r1))
  ∧ log_relayed (VString "r1") (VString "offer") = Normal ()
  ∧ deliveries 0 (on_message 1 (Json offer_r1) two_in_r1).2 = 1
  ∧ deliveries 1 (on_message 1 (Json offer_r1) two_in_r1).2 = 0.
Proof.
  destruct (relay_reaches_the_others two_in_r1 1 (Json offer_r1) offer_r1
              (VString "offer") (VString "r1") (VString "operator") (VString "X")
              [0; 1] reachable_two_in_r1 eq_refl eq_refl eq_refl)
    as (_ & Hsent & _ & Hlog & _).
  destruct (Hsent (Some (json_of offer_r1)) eq_refl) as (_ & _ & Hcount & _).
  destruct (Hcount (Hlog eq_refl)) as [_ Hdeliveries].
  split_and!; [reflexivity|reflexivity|exact (Hlog eq_refl)|
               by rewrite Hdeliveries..].
Defined.

Lemma relay_to_unknown_room_witness :
  rooms_get (VString "r9") two_in_r1 = None
  ∧ on_message 1 (Json offer_r9) two_in_r1 = (two_in_r1, [])
  ∧ message_body 1 (Json offer_r9) two_in_r1 = (two_in_r1, [], Normal ()).
Proof.
  assert (rooms_get (get offer_r9 "roomId") two_in_r1 = None) as Hroom
    by by vm_compute.
  destruct (relay_to_unknown_room two_in_r1 1 offer_r9 eq_refl Hroom)
    as [Hon Hbody].
  split_and!; [reflexivity|exact Hon|].
  exact (Hbody _ eq_refl).
Defined.

(** ** Dropped frames *)

Lemma malformed_frame_dropped_witness :
  on_message 0 Unparseable two_in_r1 = (two_in_r1, [])
  ∧ on_message 0 (Json (VObject 7 [("roomId", VString "r1")])) two_in_r1
      = (two_in_r1, [])
  ∧ on_message 0 (Json (envelope 8 "leave-room" "r1" "robot" [])) two_in_r1
      = (two_in_r1, []).
Proof.
  split_and!.
  - apply (malformed_frame_dropped two_in_r1 0 Unparseable). by left.
  - apply (malformed_frame_dropped two_in_r1 0
             (Json (VObject 7 [("roomId", VString "r1")]))).
    right. eexists. split_and!; reflexivity.
  - apply (malformed_frame_dropped two_in_r1 0
             (Json (envelope 8 "leave-room" "r1" "robot" []))).
    right. eexists. split_and!; reflexivity.
Defined.

(** ** Rooms are never empty *)

Lemma no_empty_room_witness :
  rooms_get (VString "r1") one_in_each = Some [0]
  ∧ rooms_get (VString "r1") (step (Close 0) one_in_each).1 = None
  ∧ rooms_get (VString "r2") (step (Close 0) one_in_each).1 = Some [1].
Proof.
  destruct (no_empty_room one_in_each reachable_one_in_each) as (_ & _ & Hclose).
  split_and!; [reflexivity| |reflexivity].
  exact (Hclose 0 [0] eq_refl eq_refl).
Defined.

(** ** What is relayed, and to which room *)

(** C7, refuted as stated.  Connection 1 sends an offer whose [payload]
    is [1e400], which [JSON.parse] reads as [Infinity]: connection 0 is
    sent an envelope whose [payload] is [null], which is not the value
    parsed from the frame.  An offer whose [payload] is [-0] is delivered
    with the [payload] [0]. *)
Lemma relayed_number_is_changed :
  get offer_r1_infinity "payload" = VNumber (Infinity false)
  ∧ (on_message 1 (Json offer_r1_infinity) two_in_r1).2
    = [Send 0 (envelope_text "offer" "r1" "operator" [("payload", JNull)])]
  ∧ Some (json_of offer_r1_infinity)
    = envelope_text "offer" "r1" "operator"
        [("payload", JNumber (Infinity false))]
  ∧ envelope_text "offer" "r1" "operator" [("payload", JNull)]
    ≠ Some (json_of offer_r1_infinity)
  ∧ get offer_r1_negzero "payload" = VNumber NegZero
  ∧ (on_message 1 (Json offer_r1_negzero) two_in_r1).2
    = [Send 0 (envelope_text "offer" "r1" "operator"
                 [("payload", JNumber (Integer 0))])]
  ∧ envelope_text "offer" "r1" "operator" [("payload", JNumber (Integer 0))]
    ≠ Some (json_of offer_r1_negzero).
Proof. split_and!; try reflexivity; discriminate. Qed.

Lemma relayed_envelope_is_verbatim_witness :
  (on_message 1 (Json offer_r1) two_in_r1).2 = [Send 0 (Some (json_of offer_r1))]
  ∧ writable offer_r1 = true
  ∧ ∃ c text,
      Send 0 (Some (json_of offer_r1)) = Send c (Some text)
      ∧ JSON_stringify Callback offer_r1 = Normal (Some text)
      ∧ (writable offer_r1 = true → text = json_of offer_r1).
Proof.
  split_and!; [reflexivity..|].
  apply (relayed_envelope_is_verbatim two_in_r1 1 (Json offer_r1) offer_r1
           eq_refl eq_refl).
  by left.
Defined.

(** C6, refuted as stated.  Connection 0 joined [r1] and connection 1
    joined [r2].  When connection 0 sends an offer that names [r2], the
    offer goes to connection 1, while a broadcast over the room recorded
    on connection 0 would reach nobody. *)
Lemma relay_ignores_recorded_room :
  roomId one_in_each 0 = VString "r1"
  ∧ get offer_r2 "roomId" = VString "r2"
  ∧ (on_message 0 (Json offer_r2) one_in_each).2
    = [Send 1 (envelope_text "offer" "r2" "robot" [("payload", JString "X")])]
  ∧ broadcast_to_recorded_room 0 offer_r2 one_in_each = []
  ∧ (on_message 0 (Json offer_r2) one_in_each).2
      ≠ broadcast_to_recorded_room 0 offer_r2 one_in_each.
Proof. split_and!; [reflexivity..|]. vm_compute. discriminate. Qed.

Lemma relay_follows_envelope_roomId_witness :
  (∀ c, Send c (Some (json_of offer_r2))
          ∈ (on_message 0 (Json offer_r2) one_in_each).2 ↔
        ∃ room, rooms_get (VString "r2") one_in_each = Some room
                ∧ c ∈ room ∧ c ≠ 0 ∧ readyState one_in_each c = Some WebSocket.OPEN)
  ∧ (on_message 0 (Json offer_r2)
       (with_sockets (alter (WebSocket.set_room (VString "r2") VNull) 0) one_in_each)).2
    = (on_message 0 (Json offer_r2) one_in_each).2.
Proof.
  destruct (relay_follows_envelope_roomId one_in_each 0 (Json offer_r2) offer_r2
              (VString "offer") (VString "r2") (VString "robot") (VString "X")
              eq_refl eq_refl) as (_ & Hiff & _ & Hsame).
  split; [exact (Hiff (Some (json_of offer_r2)) eq_refl eq_refl)|apply Hsame].
Defined.

(** ** The liveness flag *)

(** C9, refuted as stated.  After a heartbeat tick has cleared the flag
    of connection 0, a frame received from it leaves the flag cleared,
    and the next tick terminates the connection although it has just
    sent data. *)
Lemma message_does_not_mark_alive :
  isAlive (state_after [Connection; Tick]) 0 = false
  ∧ isAlive (on_message 0 (Json offer_r1) (state_after [Connection; Tick])).1 0 = false
  ∧ snd <$> exec [Connection; Tick; Message 0 (Json offer_r1); Tick] initial
      = Some [Ping 0; Terminate 0].
Proof. split_and!; reflexivity. Qed.

Lemma liveness_set_by_pong_only_witness :
  isAlive (state_after [Connection; Tick]) 0 = false
  ∧ isAlive (step (Pong 0) (state_after [Connection; Tick])).1 0 = true
  ∧ isAlive (step (Message 0 (Json offer_r1)) (state_after [Connection; Tick])).1 0
      = false.
Proof.
  assert (reachable (state_after [Connection; Tick])) as Hst.
  { apply reachable_state_after. vm_compute. eauto. }
  assert (0 ∈ clients (state_after [Connection; Tick])) as Hws.
  { vm_compute. by left. }
  destruct (liveness_set_by_pong_only _ 0 Hst Hws) as (Hpong & _ & Hmsg).
  split_and!; [reflexivity|exact Hpong|].
  by rewrite Hmsg.
Defined.

(** ** The heartbeat *)



(** ** Joining a second room *)

(** C10, at the input where the code leaves what the claim says.
    Connection 0 joins room [a] and then the room whose identifier is the
    empty string.  The [join-room] branch takes the second identifier as
    it takes any other, but the [close] handler tests it for truth and
    skips its cleanup: after the connection has closed it is still a
    member of both rooms, the second included. *)
Theorem falsy_room_is_not_left :
  roomId in_a_then_empty 0 = VString ""
  ∧ rooms_get (VString "a") in_a_then_empty = Some [0]
  ∧ rooms_get (VString "") in_a_then_empty = Some [0]
  ∧ enabled (Close 0) in_a_then_empty
  ∧ rooms_get (VString "") (step (Close 0) in_a_then_empty).1 = Some [0]
  ∧ rooms_get (VString "a") (step (Close 0) in_a_then_empty).1 = Some [0].
Proof. split_and!; try reflexivity. vm_compute. by left. Qed.

Lemma second_join_leaves_stale_member_witness :
  exec (Connection :: Connection :: robot_moved_to_r2 ++ [Close 0; Close 1]) initial
    = Some (state_after (Connection :: Connection :: robot_moved_to_r2
                           ++ [Close 0; Close 1]),
            [Send 0 (joined_text "r1" 1); Send 1 (joined_text "r1" 2);
             Send 0 (joined_text "r2" 1)])
  ∧ is_member (state_after (Connection :: Connection :: robot_moved_to_r2
                              ++ [Close 0; Close 1])) (VString "r1") 0
  ∧ 0 ∉ clients (state_after (Connection :: Connection :: robot_moved_to_r2
                                ++ [Close 0; Close 1])).
Proof.
  split; [reflexivity|].
  assert (reachable (state_after [Connection; Connection])) as Hst.
  { apply reachable_state_after. vm_compute. eauto. }
  refine (proj2 (proj2 (proj2 (proj2 (proj2 (proj2
    (second_join_leaves_stale_member (state_after [Connection; Connection]) 0
       join_r1_robot join_r2_robot (VString "r1") (VString "r2")
       (VString "robot") (VString "robot") VUndefined VUndefined
       [Message 1 (Json join_r1_operator)] _ _ Hst eq_refl eq_refl _ eq_refl))))))
    [Close 1] _ _ eq_refl).
  discriminate.
Defined.

(** ** Which frames are read *)

(** A [join-room] frame whose [senderId] is an object owning [toString]
    is dropped, and so is one whose [roomId] is an array holding such an
    object. *)
Lemma frame_is_read_iff_witness :
  on_message 0 (Json join_r1_unprintable) two_in_r1 = (two_in_r1, [])
  ∧ on_message 0
      (Json (VObject 1 [("type", VString "join-room");
                        ("roomId", VArray 2 [VNull;
                                             VObject 3 [("toString", VNull)]])]))
      two_in_r1
    = (two_in_r1, []).
Proof.
  split.
  - apply (frame_is_read_iff two_in_r1 0). intros fields Hread.
    assert (∃ fields, read_message (Json join_r1_unprintable)
                      = Normal (join_r1_unprintable, fields)) as Hex by eauto.
    apply (frame_is_read_iff two_in_r1 0) in Hex as (_ & _ & _ & _ & Hsender).
    apply Hsender. constructor. eauto.
  - apply (frame_is_read_iff two_in_r1 0). intros fields Hread.
    match type of Hread with read_message (Json ?d) = _ =>
      assert (∃ fields, read_message (Json d) = Normal (d, fields)) as Hex
        by eauto
    end.
    apply (frame_is_read_iff two_in_r1 0) in Hex as (_ & _ & Hroom & _).
    apply Hroom.
    apply (unprintable_element _ _ _ (VObject 3 [("toString", VNull)])).
    + right. by left.
    + constructor. eauto.
Defined.

(** ** Joining again, and joining then leaving *)

(** The operator joins [r1] and sends the same text again, which is
    parsed to another object. *)
Lemma rejoin_is_idempotent_witness :
  on_message 1 (Json (envelope 117 "join-room" "r1" "operator" [])) two_in_r1
  = (two_in_r1, [Send 1 (joined_text "r1" 2)]).
Proof.
  assert (on_message 1 (Json join_r1_operator)
            (state_after [Connection; Connection; Message 0 (Json join_r1_robot)])
          = (two_in_r1, [Send 1 (joined_text "r1" 2)])) as Hfirst
    by reflexivity.
  pose proof (rejoin_is_idempotent
    (state_after [Connection; Connection; Message 0 (Json join_r1_robot)])
    1 (Json join_r1_operator)
    (Json (envelope 117 "join-room" "r1" "operator" []))
    _ _ _ _ _ _ eq_refl eq_refl eq_refl eq_refl) as Hagain.
  by rewrite Hfirst in Hagain.
Defined.

Lemma join_then_close_restores_rooms_witness :
  rooms (step (Close 1)
           (step (Message 1 (Json join_r1_operator))
              (state_after [Connection; Connection;
                            Message 0 (Json join_r1_robot)])).1).1
  = rooms (state_after [Connection; Connection; Message 0 (Json join_r1_robot)]).
Proof.
  apply (join_then_close_restores_rooms _ 1 (Json join_r1_operator)
           join_r1_operator (VString "r1") (VString "operator") VUndefined).
  - apply reachable_state_after. vm_compute. eauto.
  - vm_compute. right. by left.
  - reflexivity.
  - reflexivity.
  - intros (room & Hroom & Hin). vm_compute in Hroom. injection Hroom as <-.
    apply list_elem_of_singleton in Hin. discriminate.
Defined.

(** ** Who is sent a message *)

Lemma closed_connection_receives_nothing_witness :
  snd <$> exec (Connection :: Connection :: robot_moved_to_r2
                  ++ [Close 0; Message 1 (Json offer_r1)]) initial
    = Some [Send 0 (joined_text "r1" 1); Send 1 (joined_text "r1" 2);
            Send 0 (joined_text "r2" 1)]
  ∧ is_member (state_after (Connection :: Connection :: robot_moved_to_r2
                              ++ [Close 0])) (VString "r1") 0
  ∧ ∀ p, Send 0 p ∉ ([] : list action).
Proof.
  split; [reflexivity|]. split.
  - exists [0; 1]. split; [reflexivity|by left].
  - eapply (closed_connection_receives_nothing
              (state_after (Connection :: Connection :: robot_moved_to_r2)) 0
              [Message 1 (Json offer_r1)]).
    + apply reachable_state_after. vm_compute. eauto.
    + vm_compute. by left.
    + reflexivity.
Defined.

(** ** The room recorded on a connection *)

Lemma recorded_room_is_joined_witness :
  roomId two_in_r1 0 = VString "r1"
  ∧ is_member two_in_r1 (VString "r1") 0
  ∧ deliveries 0 (on_message 1 (Json offer_r1) two_in_r1).2 = 1.
Proof.
  assert (0 ∈ clients two_in_r1) as Hws by (vm_compute; by left).
  assert (key_of (roomId two_in_r1 0) ≠ KUndefined) as Hrec by done.
  destruct (recorded_room_is_joined two_in_r1 0 reachable_two_in_r1 Hws Hrec)
    as [Hmem Hdeliver].
  split_and!; [reflexivity|exact Hmem|].
  apply (Hdeliver 1 (Json offer_r1) offer_r1 (VString "offer") (VString "r1")
           (VString "operator") (VString "X") (Some (json_of offer_r1)));
    reflexivity || discriminate.
Defined.

(** ** One tick of the heartbeat *)

Lemma heartbeat_tick_witness :
  (step Tick (state_after [Connection; Tick; Connection])).2
  = [Terminate 0; Ping 1].
Proof.
  assert (reachable (state_after [Connection; Tick; Connection])) as Hst.
  { apply reachable_state_after. vm_compute. eauto. }
  destruct (heartbeat_tick _ Hst) as [-> _]. reflexivity.
Defined.

(** ** How membership changes *)

Lemma membership_changes_by_own_events_witness :
  (¬ is_member one_in_each (VString "r2") 0)
  ∧ is_member (step (Message 0 (Json join_r2_robot)) one_in_each).1 (VString "r2") 0
  ∧ (∃ data roomId senderId payload,
       Message 0 (Json join_r2_robot) = Message 0 (Json data)
       ∧ read_message (Json data)
           = Normal (data, (VString "join-room", roomId, senderId, payload))
       ∧ key_of roomId = key_of (VString "r2")).
Proof.
  assert (¬ is_member one_in_each (VString "r2") 0) as Hnot.
  { intros (room & Hroom & Hin). vm_compute in Hroom. injection Hroom as <-.
    apply list_elem_of_singleton in Hin. discriminate. }
  assert (is_member (step (Message 0 (Json join_r2_robot)) one_in_each).1
            (VString "r2") 0) as Hmem.
  { exists [1; 0]. split; [reflexivity|]. right. by left. }
  split_and!; [done..|].
  exact (proj1 (membership_changes_by_own_events
                  (Message 0 (Json join_r2_robot)) one_in_each (VString "r2") 0)
           Hnot Hmem).
Defined.

(** ** A connection that has not joined *)

Lemma silent_connection_receives_nothing_witness :
  snd <$> exec (Connection :: Connection :: Connection
                  :: robot_moved_to_r2 ++ [Message 1 (Json offer_r1)]) initial
    = Some [Send 0 (joined_text "r1" 1); Send 1 (joined_text "r1" 2);
            Send 0 (joined_text "r2" 1); Send 0 (Some (json_of offer_r1))]
  ∧ ∀ p, Send 2 p ∉
      [Send 0 (joined_text "r1" 1); Send 1 (joined_text "r1" 2);
       Send 0 (joined_text "r2" 1); Send 0 (Some (json_of offer_r1))].
Proof.
  split; [reflexivity|].
  assert (reachable (state_after [Connection; Connection])) as Hst.
  { apply reachable_state_after. vm_compute. eauto. }
  eapply (silent_connection_receives_nothing (state_after [Connection; Connection])
            (robot_moved_to_r2 ++ [Message 1 (Json offer_r1)]) _ _ Hst).
  - reflexivity.
  - intros message Hin. vm_compute in Hin.
    repeat (apply elem_of_cons in Hin as [Hin|Hin]; [discriminate|]).
    by apply not_elem_of_nil in Hin.
Defined.

(** ** A connection that joins one room *)

Lemma single_join_leaves_no_trace_witness :
  rooms (state_after [Connection; Connection; Message 0 (Json join_r1_robot);
                      Message 1 (Json join_r1_operator); Close 0])
    = {[ KString "r1" := [1] ]}
  ∧ ∀ r', ¬ is_member (state_after [Connection; Connection;
                                    Message 0 (Json join_r1_robot);
                                    Message 1 (Json join_r1_operator); Close 0])
            r' 0.
Proof.
  split; [by vm_compute|].
  apply (single_join_leaves_no_trace initial [Connection]
           [Message 1 (Json join_r1_operator)] (Json join_r1_robot)
           join_r1_robot (VString "r1") (VString "robot") VUndefined
           _ [Send 0 (joined_text "r1" 1); Send 1 (joined_text "r1" 2)]).
  - constructor.
  - reflexivity.
  - reflexivity.
  - intros m [=]%list_elem_of_singleton.
  - intros m [=]%list_elem_of_singleton.
  - reflexivity.
Defined.

(** ** The size of a room *)

Lemma room_size_counts_members_witness :
  room_size (VString "r1")
    (step (Message 1 (Json join_r1_operator))
       (state_after [Connection; Connection; Message 0 (Json join_r1_robot)])).1
  = S (room_size (VString "r1")
         (state_after [Connection; Connection; Message 0 (Json join_r1_robot)])).
Proof.
  assert (reachable (state_after [Connection; Connection;
                                  Message 0 (Json join_r1_robot)])) as Hst.
  { apply reachable_state_after. vm_compute. eauto. }
  assert (1 ∈ clients (state_after [Connection; Connection;
                                    Message 0 (Json join_r1_robot)])) as Hws.
  { vm_compute. right. by left. }
  apply (proj1 (room_size_counts_members _ 1 (VString "r1") Hst Hws)
           (Json join_r1_operator) join_r1_operator (VString "operator")
           VUndefined eq_refl).
  intros (room & Hroom & Hin). vm_compute in Hroom. injection Hroom as <-.
  apply list_elem_of_singleton in Hin. discriminate.
Defined.

(** ** The checked relay *)

Lemma checked_relay_forwards_parsed_frames_witness :
  Checked.on_message 0 (Json (VNumber (Integer 42)))
      (state_after [Connection; Connection])
    = [Checked.Forward 1 (Json (VNumber (Integer 42)))]
  ∧ Checked.forwards 1
      (Checked.on_message 0 (Json (VNumber (Integer 42)))
         (state_after [Connection; Connection])) = 1
  ∧ Checked.on_message 0 (Json VNull) (state_after [Connection; Connection]) = [].
Proof.
  assert (Checked.reachable (state_after [Connection; Connection])) as Hst.
  { apply (Checked.reachable_step Connection (state_after [Connection]));
      [|exact I].
    apply (Checked.reachable_step Connection initial); [|exact I].
    constructor. }
  destruct (checked_relay_forwards_parsed_frames _ 0
              (Json (VNumber (Integer 42))) Hst) as (_ & Hsome & _).
  destruct (checked_relay_forwards_parsed_frames _ 0 (Json VNull) Hst)
    as (_ & _ & Hnone).
  split_and!.
  - reflexivity.
  - apply (Hsome (VNumber (Integer 42))); [done..|]. by inversion 1.
  - apply Hnone. right. by left.
Defined.

End examples.
